(** * Dependence checker: control and data dependence

    A shallow embedding of the two builders of the DependenceCheck pass
    (ControlDependence.cpp and DataDependence.cpp) and the properties
    their specification states about them.

    Pointers to IR objects are modelled by their identity (a [positive]);
    a pointer that may be null is an [option].  The LLVM collaborators
    (post-dominator tree, memory-dependence analysis, alias analysis, the
    instruction predicates) are records of functions: the pass only ever
    observes them through these calls. *)

From stdpp Require Import gmap strings list fin_maps fin_sets sorting pretty.
From Stdlib Require Import Ascii.

(** ** Fatal signals and results *)

(** What stops a run: a failed [assert], an [llvm_unreachable], the
    dereference of a null pointer, or (model only) exhausted fuel. *)
Inductive Signal :=
| AssertionFailed (msg : string)
| Unreachable (msg : string)
| NullDereference
| OutOfFuel.

Inductive Result (A : Type) :=
| Ok (a : A)
| Fatal (s : Signal).
Arguments Ok {A} a.
Arguments Fatal {A} s.

Global Instance Result_ret : MRet Result := @Ok.
Global Instance Result_bind : MBind Result :=
  λ A B f r, match r with Ok a => f a | Fatal s => Fatal s end.

Abbreviation BasicBlock := positive (only parsing).
Abbreviation Instruction := positive (only parsing).

(** * Control dependence (ControlDependence.cpp) *)

Module ControlDependence.

(** Identity of a [DomTreeNode] object of the post-dominator tree. *)
Abbreviation DomTreeNode := positive (only parsing).

(** The part of [llvm::PostDominatorTree] the builder calls.
    [getNode] is null for a block outside the tree, [getBlock] is null
    for the virtual exit node, [getIDom] is null at the root.
    [properlyDominates B A] and [findNearestCommonDominator A B] are the
    tree's own queries. *)
Record PostDominatorTree := {
  getNode : BasicBlock → option DomTreeNode;
  getBlock : DomTreeNode → option BasicBlock;
  getIDom : DomTreeNode → option DomTreeNode;
  properlyDominates : BasicBlock → BasicBlock → bool;
  findNearestCommonDominator : BasicBlock → BasicBlock → option BasicBlock
}.

(** [struct CFGEdge]: the edge [tail -> head].  Edges are only built by
    [getNonPDomEdges], from a block of the function and one of its
    successors, so both ends are blocks. *)
Record CFGEdge := { tail : BasicBlock; head : BasicBlock }.

(** A function as the builder traverses it: its blocks in layout order
    ([F.begin() .. F.end()]), each with its successors in terminator
    order ([succ_begin(A) .. succ_end(A)]). *)
Definition Function := list (BasicBlock * list BasicBlock).

(** [controlDeps_ : std::map<BasicBlock*, std::set<BasicBlock*>>].  The
    set holds whatever [getBlock()] returned, null included. *)
Abbreviation ControlDeps := (gmap positive (gset (option positive))) (only parsing).

(** Inner loop of [getNonPDomEdges]: the successors [B] of [A] with
    [!PDT.properlyDominates(B, A)]. *)
Definition succEdges (PDT : PostDominatorTree) (A : BasicBlock)
    (succs : list BasicBlock) : list CFGEdge :=
  flat_map (λ B, if negb (properlyDominates PDT B A)
                 then [ {| tail := A; head := B |} ] else []) succs.

Definition getNonPDomEdges (F : Function) (PDT : PostDominatorTree)
    : list CFGEdge :=
  flat_map (λ '(A, succs), succEdges PDT A succs) F.

(** [while (curNode != parentA) { depSet.insert(curNode->getBlock());
    curNode = curNode->getIDom(); }].  Walking off the root while
    [parentA] is not null dereferences a null [curNode]. *)
Fixpoint walkUp (PDT : PostDominatorTree) (fuel : nat)
    (curNode parentA : option DomTreeNode) (depSet : gset (option BasicBlock))
    : Result (gset (option BasicBlock)) :=
  if decide (curNode = parentA) then Ok depSet
  else match curNode with
       | None => Fatal NullDereference
       | Some n =>
           match fuel with
           | O => Fatal OutOfFuel
           | S fuel' =>
               walkUp PDT fuel' (getIDom PDT n) parentA
                      (depSet ∪ {[ getBlock PDT n ]})
           end
       end.

(** Body of the loop of [updateControlDependencies] for one edge.
    [controlDeps_[A]] creates the key with an empty set when it is
    absent, before the walk starts; [depSet] is a reference into the
    map, so the walk's insertions land in [controlDeps_[A]].  The
    MK_DEBUG lines print, and assert that [depSet] and [controlDeps_[A]]
    have one size, which holds of a reference; they are left out. *)
Definition processEdge (PDT : PostDominatorTree) (fuel : nat)
    (controlDeps_ : ControlDeps) (curEdge : CFGEdge) : Result ControlDeps :=
  let A := tail curEdge in
  let B := head curEdge in
  match findNearestCommonDominator PDT A B with
  | None => Ok controlDeps_
  | Some L =>
      match getNode PDT A with
      | None => Fatal NullDereference
      | Some domNodeA =>
          let parentA := getIDom PDT domNodeA in
          let domNodeB := getNode PDT B in
          let depSet := default ∅ (controlDeps_ !! A) in
          depSet' ← walkUp PDT fuel domNodeB parentA depSet;
          Ok (<[A := depSet']> controlDeps_)
      end
  end.

Fixpoint updateControlDependencies (PDT : PostDominatorTree) (fuel : nat)
    (S : list CFGEdge) (controlDeps_ : ControlDeps) : Result ControlDeps :=
  match S with
  | [] => Ok controlDeps_
  | curEdge :: S' =>
      controlDeps' ← processEdge PDT fuel controlDeps_ curEdge;
      updateControlDependencies PDT fuel S' controlDeps'
  end.

(** [getControlDependencies(F, PDT)]: the map is a member of the pass
    object and is not cleared, so a run continues from [controlDeps_]. *)
Definition getControlDependencies (F : Function) (PDT : PostDominatorTree)
    (fuel : nat) (controlDeps_ : ControlDeps) : Result ControlDeps :=
  updateControlDependencies PDT fuel (getNonPDomEdges F PDT) controlDeps_.

(** *** The dot file ([toDot], [insertDotNode], [insertDotEdge])

    Text is a list of characters.  What the stream operators print for
    a block pointer and for a block, and what opening a file reports,
    belong to LLVM and the system.  The MK_DEBUG lines only write to
    [errs()] and are left out. *)

Definition lit (s : string) : list ascii := String.list_ascii_of_string s.
Definition newline : ascii := "010"%char.
Definition dquote : ascii := "034"%char.
Definition backslash : ascii := "092"%char.

Record DotEnv := {
  openError : list ascii → list ascii;
  ptrText : option BasicBlock → list ascii;
  blockText : BasicBlock → list ascii
}.

(** [std::string::find(c)]: the first position of [c], if any. *)
Fixpoint findChar (c : ascii) (s : list ascii) : option nat :=
  match s with
  | [] => None
  | x :: s' => if decide (x = c) then Some O else S <$> findChar c s'
  end.

(** [bbstr.erase(hit, 1)] and [bbstr.insert(hit, str)]. *)
Definition erase1 (hit : nat) (bbstr : list ascii) : list ascii :=
  take hit bbstr ++ drop (S hit) bbstr.

Definition insertAt (hit : nat) (str bbstr : list ascii) : list ascii :=
  take hit bbstr ++ str ++ drop hit bbstr.

(** The loop of [insertDotNode] that turns every line break of the
    block's text into a backslash followed by an l, searching from the
    start of the string each time. *)
Fixpoint escapeLoop (fuel : nat) (bbstr : list ascii) : Result (list ascii) :=
  match findChar newline bbstr with
  | None => Ok bbstr
  | Some hit =>
      match fuel with
      | O => Fatal OutOfFuel
      | S fuel' =>
          escapeLoop fuel' (insertAt hit [backslash; "l"%char] (erase1 hit bbstr))
      end
  end.

(** [insertDotNode(out, node)]: printing [*node] dereferences the
    pointer. *)
Definition insertDotNode (env : DotEnv) (fuel : nat) (out : list ascii)
    (node : option BasicBlock) : Result (list ascii) :=
  let out1 := out ++ lit "Node" ++ ptrText env node
                  ++ lit " [shape=record, label=" ++ [dquote] in
  match node with
  | None => Fatal NullDereference
  | Some b =>
      bbstr ← escapeLoop fuel (blockText env b);
      Ok (out1 ++ bbstr ++ [dquote] ++ lit "];" ++ [newline])
  end.

(** [insertDotEdge(out, A, B)]: the two pointers are only printed. *)
Definition insertDotEdge (env : DotEnv) (out : list ascii)
    (A B : option BasicBlock) : list ascii :=
  out ++ lit "Node" ++ ptrText env A ++ lit "->" ++ lit "Node"
      ++ ptrText env B ++ [newline].

(** [std::map] and [std::set] are traversed in increasing pointer
    order; identities are taken to be numbered in address order, the
    null pointer first. *)
Definition ptr_le (x y : option BasicBlock) : Prop :=
  match x, y with
  | None, _ => True
  | Some _, None => False
  | Some a, Some b => (a ≤ b)%positive
  end.

Global Instance ptr_le_dec x y : Decision (ptr_le x y).
Proof. destruct x, y; simpl; apply _. Defined.

Definition key_le (x y : BasicBlock * gset (option BasicBlock)) : Prop :=
  (x.1 ≤ y.1)%positive.

Global Instance key_le_dec x y : Decision (key_le x y).
Proof. unfold key_le. apply _. Defined.

Definition setOrder (depSet : gset (option BasicBlock))
    : list (option BasicBlock) :=
  merge_sort ptr_le (elements depSet).

Definition mapOrder (controlDeps_ : ControlDeps)
    : list (BasicBlock * gset (option BasicBlock)) :=
  merge_sort key_le (map_to_list controlDeps_).

(** The inner loop of [toDot] over one dependent-set. *)
Fixpoint dotDeps (env : DotEnv) (fuel : nat) (tail : BasicBlock)
    (depSet : list (option BasicBlock))
    (insertedNodes : gset (option BasicBlock)) (out : list ascii)
    : Result (gset (option BasicBlock) * list ascii) :=
  match depSet with
  | [] => Ok (insertedNodes, out)
  | j :: rest =>
      if decide (j ∈ insertedNodes) then
        dotDeps env fuel tail rest insertedNodes
          (insertDotEdge env out (Some tail) j)
      else
        out1 ← insertDotNode env fuel out j;
        dotDeps env fuel tail rest ({[ j ]} ∪ insertedNodes)
          (insertDotEdge env out1 (Some tail) j)
  end.

(** The outer loop of [toDot] over the map. *)
Fixpoint dotEntries (env : DotEnv) (fuel : nat)
    (entries : list (BasicBlock * gset (option BasicBlock)))
    (insertedNodes : gset (option BasicBlock)) (out : list ascii)
    : Result (gset (option BasicBlock) * list ascii) :=
  match entries with
  | [] => Ok (insertedNodes, out)
  | (tail, depSet) :: rest =>
      r ← dotDeps env fuel tail (setOrder depSet) insertedNodes out;
      dotEntries env fuel rest r.1 r.2
  end.

(** How [toDot] ends: the file was written, or it could not be opened
    and a warning went to [errs()]. *)
Inductive DotResult :=
| DotWritten (name content : list ascii)
| DotNotOpened (warning : list ascii).

Definition dotHeader (name : list ascii) : list ascii :=
  lit "digraph " ++ [dquote] ++ lit "CDG for " ++ name ++ lit " module"
    ++ [dquote] ++ lit " {" ++ [newline].

(** [ControlDependence::toDot(name)]. *)
Definition toDot (env : DotEnv) (fuel : nat) (controlDeps_ : ControlDeps)
    (name : list ascii) : Result DotResult :=
  let name := if decide (name = []) then lit "controldeps.dot" else name in
  let errInfo := openError env name in
  if decide (errInfo = []) then
    r ← dotEntries env fuel (mapOrder controlDeps_) ∅ (dotHeader name);
    Ok (DotWritten name (r.2 ++ lit "}"))
  else
    Ok (DotNotOpened
          (lit "[Warning] Error opening output file: " ++ errInfo
             ++ [newline])).

(** *** Vocabulary of the properties *)

(** The text with every line break replaced by a backslash and an l. *)
Definition escaped (s : list ascii) : list ascii :=
  flat_map (λ c, if decide (c = newline) then [backslash; "l"%char] else [c]) s.

(** The line breaks of a text. *)
Definition lineBreaks (s : list ascii) : nat :=
  length (filter (λ c, c = newline) s).

(** The statements of a dot file: a labelled node, or an edge. *)
Inductive DotItem :=
| NodeDef (b : BasicBlock)
| EdgeDef (a b : BasicBlock).

Global Instance DotItem_eq_dec : EqDecision DotItem.
Proof. solve_decision. Defined.

(** The text of a statement, as [insertDotNode] and [insertDotEdge]
    write it. *)
Definition itemText (env : DotEnv) (i : DotItem) : list ascii :=
  match i with
  | NodeDef b =>
      lit "Node" ++ ptrText env (Some b) ++ lit " [shape=record, label="
        ++ [dquote] ++ escaped (blockText env b) ++ [dquote] ++ lit "];"
        ++ [newline]
  | EdgeDef a b =>
      lit "Node" ++ ptrText env (Some a) ++ lit "->" ++ lit "Node"
        ++ ptrText env (Some b) ++ [newline]
  end.

(** The (controller, dependent) pairs of some entries, in traversal
    order, null dependents left out. *)
Definition depPairs (entries : list (BasicBlock * gset (option BasicBlock)))
    : list (BasicBlock * BasicBlock) :=
  flat_map (λ e, pair e.1 <$> omap id (setOrder e.2)) entries.

(** The statements for a list of pairs: an edge for each pair, after a
    node for the dependent the first time it is met. *)
Fixpoint itemsOf (seen : gset (option BasicBlock))
    (pairs : list (BasicBlock * BasicBlock)) : list DotItem :=
  match pairs with
  | [] => []
  | (a, b) :: rest =>
      (if decide (Some b ∈ seen) then [] else [NodeDef b])
        ++ EdgeDef a b :: itemsOf ({[ Some b ]} ∪ seen) rest
  end.

(** The name [toDot] opens: the default for an empty one. *)
Definition dotName (name : list ascii) : list ascii :=
  if decide (name = []) then lit "controldeps.dot" else name.

(** [idomPath PDT stop cur l]: [l] lists the nodes met from [cur]
    upwards along immediate-post-dominator links, up to but excluding
    [stop]. *)
Inductive idomPath (PDT : PostDominatorTree) (stop : option DomTreeNode)
    : option DomTreeNode → list DomTreeNode → Prop :=
| idomPath_stop : idomPath PDT stop stop []
| idomPath_step n l :
    Some n ≠ stop →
    idomPath PDT stop (getIDom PDT n) l →
    idomPath PDT stop (Some n) (n :: l).

(** The edges of the CFG, in traversal order. *)
Definition cfgEdges (F : Function) : list (BasicBlock * BasicBlock) :=
  flat_map (λ '(A, succs), pair A <$> succs) F.

(** Every key has at least one dependent block. *)
Definition keysNonEmpty (m : ControlDeps) : Prop :=
  ∀ A s, m !! A = Some s → ∃ B : BasicBlock, Some B ∈ s.

(** What the builder relies on when [PDT] is the post-dominator tree of
    [F]: the node of a block wraps that block, an immediate
    post-dominator properly post-dominates, and a block without a parent
    in the tree is an exit of the function. *)
Record pdtOf (F : Function) (PDT : PostDominatorTree) : Prop := {
  node_block : ∀ B nB, getNode PDT B = Some nB → getBlock PDT nB = Some B;
  idom_properly_dominates : ∀ A B nA nB,
    getNode PDT A = Some nA → getNode PDT B = Some nB →
    getIDom PDT nA = Some nB → properlyDominates PDT B A = true;
  root_is_exit : ∀ A succs nA,
    (A, succs) ∈ F → getNode PDT A = Some nA →
    getIDom PDT nA = None → succs = []
}.

(** The effect of one edge on the map: [A]'s set grows by [X]. *)
Definition mark (A : BasicBlock) (X : gset (option BasicBlock))
    (m : ControlDeps) : ControlDeps :=
  <[A := default ∅ (m !! A) ∪ X]> m.

(** [grows m m']: every key of [m] is a key of [m'], with a set that
    holds at least the same blocks. *)
Definition grows (m m' : ControlDeps) : Prop :=
  ∀ A s, m !! A = Some s → ∃ s', m' !! A = Some s' ∧ s ⊆ s'.

(** An edge as the pair of its ends. *)
Definition edgeOf (p : BasicBlock * BasicBlock) : CFGEdge :=
  {| tail := p.1; head := p.2 |}.

(** *** A tree given by its parent table, for the examples

    One node per block (the node of block [b] is [b]), no virtual exit;
    the two queries are computed by walking the table, for trees that
    hold every block of the function. *)
Fixpoint idomChain (idom : gmap positive positive) (fuel : nat)
    (n : positive) : list positive :=
  match fuel with
  | O => []
  | S fuel' => match idom !! n with
               | None => []
               | Some p => p :: idomChain idom fuel' p
               end
  end.

Definition tablePDT (root : positive) (idom : gmap positive positive)
    : PostDominatorTree :=
  let up n := idomChain idom (size idom) n in
  {| getNode b :=
       if bool_decide (b = root ∨ is_Some (idom !! b)) then Some b else None;
     getBlock n := Some n;
     getIDom n := idom !! n;
     properlyDominates B A := bool_decide (B ∈ up A);
     findNearestCommonDominator A B :=
       List.find (λ n, bool_decide (n ∈ B :: up B)) (A :: up A) |}.

(** A dot environment for the examples: every file opens, a pointer
    prints as the number of its block (0 for null), and the text of a
    block is two lines. *)
Definition exampleDotEnv : DotEnv :=
  {| openError _ := [];
     ptrText p := match p with
                  | None => lit "0"
                  | Some b => lit (pretty (N.pos b))
                  end;
     blockText b := lit "bb" ++ [newline] ++ lit "ret" ++ [newline] |}.

(** The loop of the self-dependence scenario, with [H = 1], [X = 2],
    [Y = 3]: [X]'s immediate post-dominator is [H], [H]'s is [Y]. *)
Definition loopCFG : Function := [(1, [2; 3]); (2, [1]); (3, [])]%positive.
Definition loopPDT : PostDominatorTree :=
  tablePDT 3 (list_to_map [(2, 1); (1, 3)])%positive.

(** The branch of the end-to-end scenario: [Entry = 1], [A = 2],
    [B = 3], [C = 4], [D = 5], [Exit = 6]. *)
Definition diamondCFG : Function :=
  [(1, [2]); (2, [3; 4]); (3, [5]); (4, [5]); (5, [6]); (6, [])]%positive.
Definition diamondPDT : PostDominatorTree :=
  tablePDT 6 (list_to_map [(1, 2); (2, 5); (3, 5); (4, 5); (5, 6)])%positive.

(** The branch function laid out backwards, successors swapped. *)
Definition diamondCFG' : Function :=
  [(6, []); (5, [6]); (4, [5]); (3, [5]); (2, [4; 3]); (1, [2])]%positive.

(** A straight line [1 -> 2 -> 3]. *)
Definition lineCFG : Function := [(1, [2]); (2, [3]); (3, [])]%positive.
Definition linePDT : PostDominatorTree :=
  tablePDT 3 (list_to_map [(1, 2); (2, 3)])%positive.

(** A function whose block [2] loops for ever: [1 -> 2], [1 -> 3],
    [2 -> 2], exit [3].  Block [2] cannot reach the exit and has no
    node in the tree; LLVM's dominance queries take a block outside the
    tree to be dominated by every block and to dominate none. *)
Definition strayCFG : Function := [(1, [2; 3]); (2, [2]); (3, [])]%positive.
Definition strayPDT : PostDominatorTree :=
  {| getNode b := if bool_decide (b = 2%positive) then None else Some b;
     getBlock n := Some n;
     getIDom n := if bool_decide (n = 1%positive) then Some 3%positive
                  else None;
     properlyDominates B A :=
       bool_decide (B ≠ A ∧ (A = 2 ∨ (B = 3 ∧ A = 1)))%positive;
     findNearestCommonDominator A B :=
       if bool_decide (A = B ∨ A = 2)%positive then Some B
       else if bool_decide (B = 2)%positive then Some A
       else Some 3%positive |}.

End ControlDependence.

(** * Data dependence (DataDependence.h, DataDependence.cpp) *)

Module DataDependence.

(** [enum DepType]. *)
Inductive DepType := Clobber | Def | NonFuncLocal | NonLocal | Unknown | Invalid.

Global Instance DepType_eq_dec : EqDecision DepType.
Proof. solve_decision. Defined.

(** The enumerators' values in the header. *)
Definition DepType_value (d : DepType) : Z :=
  match d with
  | Clobber => 0 | Def => 1 | NonFuncLocal => 2 | NonLocal => 3
  | Unknown => 4 | Invalid => 99
  end.

(** [DataDependence::depTypeToString]; the switch covers the
    enumeration, so the [llvm_unreachable] behind it is never met. *)
Definition depTypeToString (d : DepType) : string :=
  match d with
  | Clobber => "Clobber"
  | Def => "Def"
  | NonFuncLocal => "NonFuncLocal"
  | NonLocal => "NonLocal"
  | Unknown => "Unknown"
  | Invalid => "Invalid"
  end.

(** [struct DepInfo]: the instruction depended on (may be null) and the
    kind.  The default constructor gives [DepInfo_default]. *)
Record DepInfo := mkDepInfo { DepInst_ : option Instruction; Type_ : DepType }.

Definition DepInfo_default : DepInfo :=
  {| DepInst_ := None; Type_ := Invalid |}.

(** [DepInfo::valid()]. *)
Definition valid (d : DepInfo) : bool :=
  if decide (Type_ d = Invalid) then false else true.

(** [llvm::MemDepResult] as the tracker reads it: the five predicates
    and [getInst()]. *)
Record MemDepResult := {
  isClobber : bool;
  isDef : bool;
  isNonFuncLocal : bool;
  isUnknown : bool;
  isNonLocal : bool;
  getInst : option Instruction
}.

(** [DataDependence::getDepInfo]: the first predicate that holds
    decides; none holding is [llvm_unreachable]. *)
Definition getDepInfo (dep : MemDepResult) : Result DepInfo :=
  if isClobber dep then Ok (mkDepInfo (getInst dep) Clobber)
  else if isDef dep then Ok (mkDepInfo (getInst dep) Def)
  else if isNonFuncLocal dep then Ok (mkDepInfo (getInst dep) NonFuncLocal)
  else if isUnknown dep then Ok (mkDepInfo (getInst dep) Unknown)
  else if isNonLocal dep then Ok (mkDepInfo (getInst dep) NonLocal)
  else Fatal (Unreachable "unknown dependence type").

(** Which [dyn_cast] of [processDepResult] succeeds on an instruction. *)
Inductive InstKind := LoadInst | StoreInst | VAArgInst | OtherInst.

Global Instance InstKind_eq_dec : EqDecision InstKind.
Proof. solve_decision. Defined.

(** The host IR, as far as the tracker looks at an instruction. *)
Record HostIR := {
  mayReadFromMemory : Instruction → bool;
  mayWriteToMemory : Instruction → bool;
  instKind : Instruction → InstKind;
  isUnordered : Instruction → bool;
  getParent : Instruction → BasicBlock
}.

Section Tracker.

(** [AliasAnalysis::Location] and [llvm::NonLocalDepResult] are opaque
    to the tracker. *)
Context {Location NonLocalDepResult : Type}.

(** [llvm::MemoryDependenceAnalysis]: the two queries.  The second one
    fills the vector it is given; here it returns the entries in the
    order it reports them. *)
Record MemoryDependenceAnalysis := {
  getDependency : Instruction → MemDepResult;
  getNonLocalPointerDependency :
    Location → bool → BasicBlock → list NonLocalDepResult
}.

(** [llvm::AliasAnalysis]. *)
Record AliasAnalysis := { getLocation : Instruction → Location }.

(** The two maps of the class and, with them, the lines written to
    [errs()]. *)
Record State := mkState {
  LocalDeps_ : gmap positive DepInfo;
  NonLocalDeps_ : gmap positive (list NonLocalDepResult);
  errs : list string
}.

Definition emptyState : State :=
  {| LocalDeps_ := ∅; NonLocalDeps_ := ∅; errs := [] |}.

(** How a call ends: normally, or on a fatal signal; the state is the
    one reached at that point. *)
Inductive Outcome :=
| Done (st : State)
| Aborted (s : Signal) (st : State).

Definition stateOf (o : Outcome) : State :=
  match o with Done st => st | Aborted _ st => st end.

(** The loop [NonLocalDeps_[inst].push_back(entry)] over the entries of
    [NLDep]: the key is created by the first [operator[]], so only when
    there is an entry. *)
Fixpoint pushAll (inst : Instruction) (NLDep : list NonLocalDepResult)
    (m : gmap positive (list NonLocalDepResult))
    : gmap positive (list NonLocalDepResult) :=
  match NLDep with
  | [] => m
  | entry :: rest =>
      pushAll inst rest (<[inst := default [] (m !! inst) ++ [entry]]> m)
  end.

Definition storeNonLocal (inst : Instruction) (NLDep : list NonLocalDepResult)
    (st : State) : State :=
  {| LocalDeps_ := LocalDeps_ st;
     NonLocalDeps_ := pushAll inst NLDep (NonLocalDeps_ st);
     errs := errs st |}.

Definition storeLocal (inst : Instruction) (newInfo : DepInfo) (st : State)
    : State :=
  {| LocalDeps_ := <[inst := newInfo]> (LocalDeps_ st);
     NonLocalDeps_ := NonLocalDeps_ st;
     errs := errs st |}.

Definition warn (msg : string) (st : State) : State :=
  {| LocalDeps_ := LocalDeps_ st;
     NonLocalDeps_ := NonLocalDeps_ st;
     errs := errs st ++ [msg] |}.

Variable IR : HostIR.
Variable MDA : MemoryDependenceAnalysis.
Variable AA : AliasAnalysis.

(** [DataDependence::processDepResult].  The [assert]s are live; the
    second one of the non-local branch, [assert(Res.isNonLocal())],
    repeats the branch condition. *)
Definition processDepResult (inst : Instruction) (st : State) : Outcome :=
  let Res := getDependency MDA inst in
  if negb (isNonLocal Res) then
    match getDepInfo Res with
    | Fatal s => Aborted s st
    | Ok newInfo =>
        if valid newInfo then Done (storeLocal inst newInfo st)
        else Aborted (AssertionFailed "newInfo.valid()") st
    end
  else
    match getDepInfo Res with
    | Fatal s => Aborted s st
    | Ok newInfo =>
        if decide (Type_ newInfo = NonLocal) then
          match instKind IR inst with
          | LoadInst =>
              if negb (isUnordered IR inst) then
                Aborted (AssertionFailed "atomic/volatile loads not handled")
                  (warn "[WARNING] atomic/volatile loads are not handled" st)
              else
                let Loc := getLocation AA inst in
                Done (storeNonLocal inst
                        (getNonLocalPointerDependency MDA Loc true
                           (getParent IR inst)) st)
          | StoreInst =>
              if negb (isUnordered IR inst) then
                Aborted (AssertionFailed "atomic/volatile stores not handled")
                  (warn "[WARNING] atomic/volatile stores are not handled" st)
              else
                let Loc := getLocation AA inst in
                Done (storeNonLocal inst
                        (getNonLocalPointerDependency MDA Loc false
                           (getParent IR inst)) st)
          | VAArgInst =>
              let Loc := getLocation AA inst in
              Done (storeNonLocal inst
                      (getNonLocalPointerDependency MDA Loc false
                         (getParent IR inst)) st)
          | OtherInst =>
              Aborted (Unreachable "Unknown memory instruction!") st
          end
        else Aborted (AssertionFailed "newInfo.Type_ == NonLocal") st
    end.

(** [DataDependence::getDataDependencies] over the instructions of the
    function in order; a fatal signal ends the run. *)
Fixpoint getDataDependencies (F : list Instruction) (st : State) : Outcome :=
  match F with
  | [] => Done st
  | inst :: F' =>
      if negb (mayReadFromMemory IR inst) && negb (mayWriteToMemory IR inst)
      then getDataDependencies F' st
      else match processDepResult inst st with
           | Done st' => getDataDependencies F' st'
           | Aborted s st' => Aborted s st'
           end
  end.

(** *** Vocabulary of the properties *)

(** Exactly one of the five predicates of an oracle result holds. *)
Definition exactlyOne (dep : MemDepResult) : Prop :=
  length (List.filter id [isClobber dep; isDef dep; isNonFuncLocal dep;
                          isUnknown dep; isNonLocal dep]) = 1.

(** The kind whose predicate holds, looked up predicate by predicate. *)
Definition kindOf (dep : MemDepResult) (k : DepType) : Prop :=
  match k with
  | Clobber => isClobber dep = true
  | Def => isDef dep = true
  | NonFuncLocal => isNonFuncLocal dep = true
  | Unknown => isUnknown dep = true
  | NonLocal => isNonLocal dep = true
  | Invalid => False
  end.

(** A memory access the loop of [getDataDependencies] hands over. *)
Definition accessesMemory (inst : Instruction) : Prop :=
  mayReadFromMemory IR inst = true ∨ mayWriteToMemory IR inst = true.

(** The oracle's answer is non-local and nothing else. *)
Definition nonLocalResult (inst : Instruction) : Prop :=
  exactlyOne (getDependency MDA inst)
  ∧ isNonLocal (getDependency MDA inst) = true.

(** The entries the oracle reports for the non-local query on [inst]
    issued with direction flag [isLoad]. *)
Definition queryEntries (inst : Instruction) (isLoad : bool)
    : list NonLocalDepResult :=
  getNonLocalPointerDependency MDA (getLocation AA inst) isLoad
    (getParent IR inst).

(** The direction flag [processDepResult] passes for [inst]: [true] at
    the call for a load, [false] at the calls for a store and for a
    va_arg. *)
Definition queryFlag (inst : Instruction) : bool :=
  match instKind IR inst with LoadInst => true | _ => false end.

(** The kinds a Local-map record may carry. *)
Definition localKind (k : DepType) : Prop :=
  k = Clobber ∨ k = Def ∨ k = NonFuncLocal ∨ k = Unknown.

Definition localKindsOnly (st : State) : Prop :=
  ∀ i d, LocalDeps_ st !! i = Some d → localKind (Type_ d).

Definition noInvalidStored (st : State) : Prop :=
  ∀ i d, LocalDeps_ st !! i = Some d → Type_ d ≠ Invalid.

(** The keys of the two maps agree with the oracle: Local keys have a
    local answer, Non-Local keys a non-local one with an entry. *)
Definition keysAgree (st : State) : Prop :=
  (∀ i, i ∈ dom (LocalDeps_ st) → isNonLocal (getDependency MDA i) = false)
  ∧ (∀ i, i ∈ dom (NonLocalDeps_ st) →
       isNonLocal (getDependency MDA i) = true
       ∧ queryEntries i (queryFlag i) ≠ []).

Definition domGrows (st st' : State) : Prop :=
  dom (LocalDeps_ st) ⊆ dom (LocalDeps_ st')
  ∧ dom (NonLocalDeps_ st) ⊆ dom (NonLocalDeps_ st').

End Tracker.

Global Instance accessesMemory_dec (IR : HostIR) (inst : Instruction) :
  Decision (accessesMemory IR inst).
Proof. unfold accessesMemory. apply _. Defined.

Arguments State : clear implicits.
Arguments Outcome : clear implicits.
Arguments MemoryDependenceAnalysis : clear implicits.
Arguments AliasAnalysis : clear implicits.

(** *** An instruction stream for the examples

    [1]: load, [2]: store, [3]: va_arg, [4]: atomic load, [5]: call,
    [6]: no memory access; all in block [1].  Locations are named by
    the accessing instruction; a non-local entry is an (address, block)
    pair. *)
Definition exampleIR : HostIR :=
  {| mayReadFromMemory i := bool_decide (i ∈ [1; 3; 4; 5]%positive);
     mayWriteToMemory i := bool_decide (i ∈ [2; 5]%positive);
     instKind i :=
       match i with
       | 1 | 4 => LoadInst | 2 => StoreInst | 3 => VAArgInst | _ => OtherInst
       end%positive;
     isUnordered i := negb (bool_decide (i = 4%positive));
     getParent _ := 1%positive |}.

Definition onlyNonLocal : MemDepResult :=
  {| isClobber := false; isDef := false; isNonFuncLocal := false;
     isUnknown := false; isNonLocal := true; getInst := None |}.

Definition defBy (i : Instruction) : MemDepResult :=
  {| isClobber := false; isDef := true; isNonFuncLocal := false;
     isUnknown := false; isNonLocal := false; getInst := Some i |}.

Definition clobberBy (i : Instruction) : MemDepResult :=
  {| isClobber := true; isDef := false; isNonFuncLocal := false;
     isUnknown := false; isNonLocal := false; getInst := Some i |}.

(** Stores and calls have a local answer, the other accesses a
    non-local one; a read-oriented query reports one entry, a
    write-oriented query two. *)
Definition exampleMDA : MemoryDependenceAnalysis positive (positive * positive) :=
  {| getDependency i :=
       match i with
       | 2 => defBy 1 | 5 => clobberBy 2 | _ => onlyNonLocal
       end%positive;
     getNonLocalPointerDependency Loc isLoad BB :=
       if isLoad then [(Loc, 7%positive)]
       else [(Loc, 8%positive); (Loc, 9%positive)] |}.

(** The same oracle, finding nothing on a non-local query. *)
Definition silentMDA : MemoryDependenceAnalysis positive (positive * positive) :=
  {| getDependency := getDependency exampleMDA;
     getNonLocalPointerDependency _ _ _ := [] |}.

Definition exampleAA : AliasAnalysis positive := {| getLocation i := i |}.

(** An oracle result for "no dependence in this function": local, and
    without an instruction. *)
Definition noDepInFunction : MemDepResult :=
  {| isClobber := false; isDef := false; isNonFuncLocal := true;
     isUnknown := false; isNonLocal := false; getInst := None |}.

Definition entryMDA : MemoryDependenceAnalysis positive (positive * positive) :=
  {| getDependency _ := noDepInFunction;
     getNonLocalPointerDependency _ _ _ := [] |}.

End DataDependence.

(** * The pass (DependenceCheck.cpp) *)

Module DependenceCheck.
Import ControlDependence DataDependence.

Section Pass.

Context {Location NonLocalDepResult : Type}.

(** A function of the module as [runOnModule] meets it: whether it is
    a declaration, its instructions in [inst_iterator] order, its blocks
    with their successors, and the two analyses [getAnalysis] returns
    for it. *)
Record FunctionUnit := {
  isDeclaration : bool;
  insts : list Instruction;
  blocks : Function;
  getMDA : MemoryDependenceAnalysis Location NonLocalDepResult;
  getPDT : PostDominatorTree
}.

(** The two members of [struct DependenceCheck]. *)
Record Pass := mkPass {
  DataDep : State NonLocalDepResult;
  ControlDep : gmap positive (gset (option positive))
}.

Definition freshPass : Pass :=
  {| DataDep := emptyState; ControlDep := ∅ |}.

Variable IR : HostIR.
Variable AA : AliasAnalysis Location.

(** [DependenceCheck::runOnModule]: for every function that is not a
    declaration, the data dependences, then the control dependences,
    into the members of the pass.  A fatal signal ends the process.
    The value returned is always [false] (the IR is not modified). *)
Fixpoint runOnModule (fuel : nat) (M : list FunctionUnit) (P : Pass)
    : Result Pass :=
  match M with
  | [] => Ok P
  | mi :: M' =>
      if isDeclaration mi then runOnModule fuel M' P
      else
        match getDataDependencies IR (getMDA mi) AA (insts mi) (DataDep P)
        with
        | Aborted s _ => Fatal s
        | Done DataDep' =>
            ControlDep' ← getControlDependencies (blocks mi) (getPDT mi)
                             fuel (ControlDep P);
            runOnModule fuel M'
              {| DataDep := DataDep'; ControlDep := ControlDep' |}
        end
  end.

(** [DependenceCheck::print]: what the stream operators print for an
    instruction and for the address of a non-local entry, and the
    address itself, belong to LLVM. *)
Record PrintEnv := {
  instText : Instruction → list ascii;
  valueText : positive → list ascii;
  getAddress : NonLocalDepResult → option positive
}.

Variable penv : PrintEnv.
Variable denv : DotEnv.

(** A loop whose body may end the process. *)
Fixpoint forEach {A S : Type} (body : S → A → Result S) (l : list A)
    (s : S) : Result S :=
  match l with
  | [] => Ok s
  | x :: l' => s' ← body s x; forEach body l' s'
  end.

(** Body of the loop over [LocalDeps_]; the key is never null, the
    instruction depended on is dereferenced to print it. *)
Definition printLocal (OS : list ascii) (i : Instruction * DepInfo)
    : Result (list ascii) :=
  let OS1 := OS ++ lit "Instruction: " ++ instText penv i.1 ++ [newline]
                ++ lit "    has dependence" ++ [newline]
                ++ lit "    with instruction " in
  match DepInst_ i.2 with
  | None => Fatal NullDereference
  | Some dep =>
      Ok (OS1 ++ instText penv dep ++ [newline] ++ lit "    of type "
              ++ lit (depTypeToString (Type_ i.2)) ++ [newline])
  end.

(** Body of the loop over one Non-Local record. *)
Definition printAddress (OS : list ascii) (j : NonLocalDepResult)
    : Result (list ascii) :=
  match getAddress penv j with
  | None => Fatal (AssertionFailed "j->getAddress()")
  | Some addr =>
      Ok (OS ++ lit "    Address: " ++ valueText penv addr ++ [newline])
  end.

(** Body of the loop over [NonLocalDeps_]. *)
Definition printNonLocal (OS : list ascii)
    (i : Instruction * list NonLocalDepResult) : Result (list ascii) :=
  forEach printAddress i.2
    (OS ++ lit "Instruction: " ++ instText penv i.1 ++ [newline]
        ++ lit "    has non local dependence(s) with:" ++ [newline]).

(** Body of the inner loop over a dependent-set: the dependent is
    dereferenced to print it. *)
Definition printDependent (OS : list ascii) (j : option BasicBlock)
    : Result (list ascii) :=
  match j with
  | None => Fatal NullDereference
  | Some b => Ok (OS ++ blockText denv b ++ [newline])
  end.

(** Body of the loop over [controlDeps_]. *)
Definition printControl (OS : list ascii)
    (i : BasicBlock * gset (option BasicBlock)) : Result (list ascii) :=
  forEach printDependent (setOrder i.2)
    (OS ++ lit "BasicBlock: " ++ blockText denv i.1
        ++ lit "Is dependent on:" ++ [newline]).

(** The entries of a [std::map] keyed by pointer, in key order. *)
Definition fst_le {V : Type} (x y : positive * V) : Prop :=
  (x.1 ≤ y.1)%positive.

Global Instance fst_le_dec {V : Type} (x y : positive * V) :
  Decision (fst_le x y).
Proof. unfold fst_le. apply _. Defined.

Definition inKeyOrder {V : Type} (m : gmap positive V)
    : list (positive * V) :=
  merge_sort fst_le (map_to_list m).

(** [print(OS)]: the text written to [OS], and how the dot export
    called on the way ended. *)
Definition print (fuel : nat) (P : Pass) (OS : list ascii)
    : Result (list ascii * DotResult) :=
  let OS1 := OS ++ lit "Local Dependence map size: "
                ++ lit (pretty (size (LocalDeps_ (DataDep P))))
                ++ [newline] in
  OS2 ← forEach printLocal (inKeyOrder (LocalDeps_ (DataDep P))) OS1;
  let OS3 := OS2 ++ lit "Non-Local Dependence map size: "
                 ++ lit (pretty (size (NonLocalDeps_ (DataDep P))))
                 ++ [newline] in
  OS4 ← forEach printNonLocal (inKeyOrder (NonLocalDeps_ (DataDep P))) OS3;
  dot ← toDot denv fuel (ControlDep P) [];
  OS5 ← forEach printControl (mapOrder (ControlDep P)) OS4;
  Ok (OS5, dot).

End Pass.

Arguments FunctionUnit : clear implicits.
Arguments Pass : clear implicits.
Arguments PrintEnv : clear implicits.

(** A printer for the examples: an instruction and a value print as
    their number, the address of an entry is its first component. *)
Definition examplePrintEnv : PrintEnv (positive * positive) :=
  {| instText i := lit (pretty (N.pos i));
     valueText v := lit (pretty (N.pos v));
     getAddress j := Some j.1 |}.

(** A pass state for the examples. *)
Definition examplePass : Pass (positive * positive) :=
  {| DataDep :=
       {| LocalDeps_ := {[ 2%positive := mkDepInfo (Some 1%positive) Def ]};
          NonLocalDeps_ := {[ 1%positive := [(1, 7)]%positive ]};
          errs := [] |};
     ControlDep := {[ 2%positive := {[ Some 3%positive ]} ]} |}.

(** A module for the examples: a declaration, and the branch function
    with the example instruction stream. *)
Definition exampleModule : list (FunctionUnit positive (positive * positive)) :=
  [ {| isDeclaration := true; insts := [4%positive]; blocks := loopCFG;
       getMDA := exampleMDA; getPDT := loopPDT |};
    {| isDeclaration := false; insts := [6; 2; 1; 3; 5]%positive;
       blocks := diamondCFG; getMDA := exampleMDA; getPDT := diamondPDT |} ].

End DependenceCheck.

(** * Properties of the control dependence builder *)

Section ControlDependenceFacts.
Import ControlDependence.

Variable PDT : PostDominatorTree.

Lemma idomPath_not_stop stop cur l :
  idomPath PDT stop cur l → ∀ n, n ∈ l → Some n ≠ stop.
Proof.
  induction 1 as [|n l Hne _ IH]; intros k Hk.
  - by apply elem_of_nil in Hk.
  - apply elem_of_cons in Hk as [->|Hk]; auto.
Qed.

Lemma idomPath_last stop cur l r :
  idomPath PDT stop cur l → last l = Some r → getIDom PDT r = stop.
Proof.
  induction 1 as [|n l Hne Hp IH]; intros Hr; [done|].
  destruct l as [|k l'].
  - simpl in Hr. injection Hr as ->. by inversion Hp.
  - apply IH. by rewrite last_cons_cons in Hr.
Qed.

Lemma idomPath_head stop n l :
  idomPath PDT stop (Some n) l → Some n ≠ stop → l !! 0 = Some n.
Proof. by inversion 1. Qed.

Lemma walkUp_path stop cur l :
  idomPath PDT stop cur l →
  ∀ fuel depSet, length l ≤ fuel →
    walkUp PDT fuel cur stop depSet
    = Ok (depSet ∪ list_to_set (getBlock PDT <$> l)).
Proof.
  induction 1 as [|n l Hne Hp IH]; intros fuel depSet Hf.
  - destruct fuel; simpl; rewrite decide_True by done;
      by rewrite union_empty_r_L.
  - destruct fuel as [|fuel]; simpl in Hf; [lia|].
    simpl. rewrite decide_False by done.
    rewrite IH by lia. by rewrite (assoc_L (∪)).
Qed.

Lemma walkUp_Ok fuel :
  ∀ cur stop depSet depSet',
    walkUp PDT fuel cur stop depSet = Ok depSet' →
    ∃ l, idomPath PDT stop cur l ∧ length l ≤ fuel
         ∧ depSet' = depSet ∪ list_to_set (getBlock PDT <$> l).
Proof.
  induction fuel as [|fuel IH]; intros cur stop depSet depSet' Hw.
  - simpl in Hw. destruct (decide (cur = stop)) as [->|Hne].
    + injection Hw as <-. exists []. split; [constructor|].
      split; [done|]. simpl. by rewrite union_empty_r_L.
    + by destruct cur.
  - simpl in Hw. destruct (decide (cur = stop)) as [->|Hne].
    + injection Hw as <-. exists []. split; [constructor|].
      split; [simpl; lia|]. simpl. by rewrite union_empty_r_L.
    + destruct cur as [n|]; [|done].
      apply IH in Hw as (l & Hp & Hlen & ->).
      exists (n :: l). split; [by constructor|].
      split; [simpl; lia|]. simpl. by rewrite (assoc_L (∪)).
Qed.

(** One edge either leaves the map alone or marks a set that depends on
    the edge and the tree only. *)
Lemma processEdge_effect fuel m e m' :
  processEdge PDT fuel m e = Ok m' →
  (∀ m0, processEdge PDT fuel m0 e = Ok m0)
  ∨ ∃ X, ∀ m0, processEdge PDT fuel m0 e = Ok (mark (tail e) X m0).
Proof.
  unfold processEdge.
  destruct (findNearestCommonDominator PDT (tail e) (head e)) as [L|];
    [|by left].
  destruct (getNode PDT (tail e)) as [nA|]; [|done].
  intros Hw. right.
  destruct (walkUp PDT fuel (getNode PDT (head e)) (getIDom PDT nA)
              (default ∅ (m !! tail e))) as [s|] eqn:Hs; [|done].
  apply walkUp_Ok in Hs as (l & Hp & Hlen & _).
  exists (list_to_set (getBlock PDT <$> l)). intros m0.
  by rewrite (walkUp_path _ _ _ Hp).
Qed.

Lemma grows_refl m : grows m m.
Proof. intros A s Hs. by exists s. Qed.

Lemma grows_trans m1 m2 m3 : grows m1 m2 → grows m2 m3 → grows m1 m3.
Proof.
  intros H12 H23 A s Hs.
  destruct (H12 A s Hs) as (s2 & Hs2 & Hsub).
  destruct (H23 A s2 Hs2) as (s3 & Hs3 & Hsub').
  exists s3. split; [done|]. by transitivity s2.
Qed.

Lemma mark_grows A X m : grows m (mark A X m).
Proof.
  intros B s Hs. unfold mark. destruct (decide (A = B)) as [->|Hne].
  - rewrite lookup_insert_eq, Hs. simpl. eexists. split; [done|].
    apply union_subseteq_l.
  - rewrite lookup_insert_ne by done. by exists s.
Qed.

Lemma mark_absorbed A X m0 m : grows (mark A X m0) m → mark A X m = m.
Proof.
  intros Hg. destruct (Hg A (default ∅ (m0 !! A) ∪ X)) as (s & Hs & Hsub).
  { unfold mark. by rewrite lookup_insert_eq. }
  unfold mark. rewrite Hs. simpl. apply insert_id. rewrite Hs. f_equal.
  rewrite (comm_L (∪)). symmetry. apply subseteq_union_1_L.
  etransitivity; [apply union_subseteq_r|done].
Qed.

(** A finished run only grows the map, and running the same edges again
    from any larger map changes nothing. *)
Lemma updateControlDependencies_absorbed fuel S :
  ∀ m m1, updateControlDependencies PDT fuel S m = Ok m1 →
    grows m m1
    ∧ ∀ m2, grows m1 m2 → updateControlDependencies PDT fuel S m2 = Ok m2.
Proof.
  induction S as [|e S IH]; intros m m1 Hrun; simpl in Hrun.
  - injection Hrun as <-. split; [apply grows_refl|done].
  - destruct (processEdge PDT fuel m e) as [m'|] eqn:He; [|done].
    simpl in Hrun. destruct (IH _ _ Hrun) as [Hg Hidem].
    destruct (processEdge_effect _ _ _ _ He) as [Hskip|[X Hmark]].
    + rewrite Hskip in He. injection He as <-. split; [done|].
      intros m2 Hm2. simpl. rewrite Hskip. simpl. by apply Hidem.
    + rewrite Hmark in He. injection He as <-. split.
      * eapply grows_trans; [apply mark_grows|done].
      * intros m2 Hm2. simpl. rewrite Hmark.
        rewrite (mark_absorbed _ _ m) by (by eapply grows_trans).
        simpl. by apply Hidem.
Qed.

(** The selected edges are the CFG edges whose head does not properly
    post-dominate the tail, in traversal order. *)
Lemma getNonPDomEdges_filter (F : Function) :
  getNonPDomEdges F PDT
  = edgeOf <$> filter (λ p, properlyDominates PDT p.2 p.1 = false)
                      (cfgEdges F).
Proof.
  induction F as [|[A succs] F IH]; [done|].
  unfold getNonPDomEdges, cfgEdges in *. simpl.
  rewrite filter_app, fmap_app, IH. f_equal. clear IH.
  induction succs as [|B succs IH]; [done|].
  simpl. rewrite filter_cons. simpl.
  destruct (properlyDominates PDT B A) eqn:HB; simpl.
  - apply IH.
  - unfold edgeOf at 1. simpl. f_equal. apply IH.
Qed.

Lemma getNonPDomEdges_elem (F : Function) e :
  e ∈ getNonPDomEdges F PDT →
  ∃ succs, (tail e, succs) ∈ F ∧ head e ∈ succs
           ∧ properlyDominates PDT (head e) (tail e) = false.
Proof.
  unfold getNonPDomEdges. rewrite list_elem_of_In, in_flat_map.
  intros ([A succs] & HA & He). unfold succEdges in He.
  apply in_flat_map in He as (B & HB & He).
  destruct (properlyDominates PDT B A) eqn:Hd; simpl in He; [done|].
  destruct He as [<-|[]]. simpl. exists succs.
  by rewrite !list_elem_of_In.
Qed.

Lemma processEdge_keysNonEmpty (F : Function) fuel m e m' :
  pdtOf F PDT → e ∈ getNonPDomEdges F PDT → keysNonEmpty m →
  processEdge PDT fuel m e = Ok m' → keysNonEmpty m'.
Proof.
  intros [Hblock Hidom Hroot] He Hm. unfold processEdge.
  apply getNonPDomEdges_elem in He as (succs & HA & HB & Hsel).
  destruct (findNearestCommonDominator PDT (tail e) (head e)) as [L|];
    [|by intros [= <-]].
  destruct (getNode PDT (tail e)) as [nA|] eqn:HnA; [|done].
  destruct (walkUp PDT fuel (getNode PDT (head e)) (getIDom PDT nA)
              (default ∅ (m !! tail e))) as [s|] eqn:Hs; [|done].
  simpl. intros [= <-] A s' Hl.
  destruct (decide (tail e = A)) as [<-|Hne];
    [|rewrite lookup_insert_ne in Hl by done; by eapply Hm].
  rewrite lookup_insert_eq in Hl. injection Hl as <-.
  apply walkUp_Ok in Hs as (l & Hp & _ & ->).
  inversion Hp as [Hstop|n l0 Hne Hp0 Hcur]; subst l.
  - exfalso. destruct (getNode PDT (head e)) as [nB|] eqn:HnB.
    + rewrite (Hidom _ _ _ _ HnA HnB) in Hsel; done.
    + rewrite (Hroot _ _ _ HA HnA) in HB by done. by apply elem_of_nil in HB.
  - exists (head e). simpl. rewrite (Hblock (head e) n) by done.
    apply elem_of_union_r, elem_of_union_l. by apply elem_of_singleton.
Qed.

Lemma updateControlDependencies_keysNonEmpty (F : Function) fuel S :
  pdtOf F PDT → (∀ e, e ∈ S → e ∈ getNonPDomEdges F PDT) →
  ∀ m m', keysNonEmpty m →
    updateControlDependencies PDT fuel S m = Ok m' → keysNonEmpty m'.
Proof.
  intros Hpdt. induction S as [|e S IH]; intros HS m m' Hm Hrun;
    simpl in Hrun.
  - by injection Hrun as <-.
  - destruct (processEdge PDT fuel m e) as [m1|] eqn:He; [|done].
    simpl in Hrun. eapply IH; [| |exact Hrun].
    + intros e' He'. apply HS. by apply elem_of_cons; right.
    + eapply processEdge_keysNonEmpty; [done| |done|done].
      apply HS. by apply elem_of_cons; left.
Qed.

Lemma processEdge_path (fuel : nat)
    (m : gmap positive (gset (option positive)))
    (A B L : BasicBlock) (nA : DomTreeNode) (l : list DomTreeNode) :
  findNearestCommonDominator PDT A B = Some L →
  getNode PDT A = Some nA →
  idomPath PDT (getIDom PDT nA) (getNode PDT B) l →
  length l ≤ fuel →
  processEdge PDT fuel m {| tail := A; head := B |}
  = Ok (<[A := default ∅ (m !! A) ∪ list_to_set (getBlock PDT <$> l)]> m).
Proof.
  intros HL HnA Hp Hfuel. unfold processEdge. simpl. rewrite HL, HnA.
  by rewrite (walkUp_path _ _ _ Hp) by done.
Qed.

(** Conversely, an edge that is processed without a fatal signal and
    is not skipped has such a chain. *)
Lemma processEdge_Ok_path (fuel : nat)
    (m m' : gmap positive (gset (option positive)))
    (A B L : BasicBlock) :
  findNearestCommonDominator PDT A B = Some L →
  processEdge PDT fuel m {| tail := A; head := B |} = Ok m' →
  ∃ nA l, getNode PDT A = Some nA
          ∧ idomPath PDT (getIDom PDT nA) (getNode PDT B) l
          ∧ length l ≤ fuel
          ∧ m' = <[A := default ∅ (m !! A)
                         ∪ list_to_set (getBlock PDT <$> l)]> m.
Proof.
  intros HL. unfold processEdge. simpl. rewrite HL.
  destruct (getNode PDT A) as [nA|]; [|done].
  destruct (walkUp PDT fuel (getNode PDT B) (getIDom PDT nA)
              (default ∅ (m !! A))) as [s|] eqn:Hs; [|done].
  simpl. intros [= <-].
  apply walkUp_Ok in Hs as (l & Hp & Hlen & ->). by exists nA, l.
Qed.

(** X28: for an edge [(A,B)] whose nearest common ancestor exists, whose
    tail [A] has a node in the tree, and where [l] is the chain of nodes
    from [B]'s node upwards along immediate-post-dominator links that
    ends just below [A]'s parent, the walk ends, with enough fuel,
    having added to [A]'s set exactly the blocks of the nodes of [l];
    the parent's node is not among them, and the first of them is
    [B]'s node. *)
Theorem walk_adds_chain_below_parent (fuel : nat)
    (controlDeps_ : gmap positive (gset (option positive)))
    (A B L : BasicBlock) (nA : DomTreeNode) (l : list DomTreeNode) :
  findNearestCommonDominator PDT A B = Some L →
  getNode PDT A = Some nA →
  idomPath PDT (getIDom PDT nA) (getNode PDT B) l →
  length l ≤ fuel →
  processEdge PDT fuel controlDeps_ {| tail := A; head := B |}
  = Ok (<[A := default ∅ (controlDeps_ !! A)
               ∪ list_to_set (getBlock PDT <$> l)]> controlDeps_)
  ∧ (∀ n, n ∈ l → Some n ≠ getIDom PDT nA)
  ∧ (∀ nB, getNode PDT B = Some nB → Some nB ≠ getIDom PDT nA →
       l !! 0 = Some nB).
Proof.
  intros HL HnA Hp Hfuel. split_and!.
  - by eapply processEdge_path.
  - by eapply idomPath_not_stop.
  - intros nB HnB Hne. rewrite HnB in Hp. by eapply idomPath_head.
Qed.

(** C9: when a run of the builder on [F] and [PDT] has finished with
    map [m1], a second run on the same [F] and [PDT], which continues
    from [m1], finishes with [m1] again: same keys, same sets. *)
Theorem second_run_identical (F : Function) (fuel : nat)
    (m m1 : gmap positive (gset (option positive))) :
  getControlDependencies F PDT fuel m = Ok m1 →
  getControlDependencies F PDT fuel m1 = Ok m1.
Proof.
  unfold getControlDependencies. intros Hrun.
  apply updateControlDependencies_absorbed in Hrun as [_ Hidem].
  apply Hidem, grows_refl.
Qed.

(** C8: with the post-dominator tree of [F], a run of the builder that
    finishes keeps every key's set inhabited by a block; from the empty
    map, every key [A] of the result has a block that depends on [A]. *)
Theorem keys_have_dependents (F : Function) (fuel : nat)
    (m m' : gmap positive (gset (option positive))) :
  pdtOf F PDT → keysNonEmpty m →
  getControlDependencies F PDT fuel m = Ok m' →
  keysNonEmpty m'.
Proof.
  intros Hpdt Hm Hrun.
  by eapply (updateControlDependencies_keysNonEmpty F fuel
               (getNonPDomEdges F PDT)).
Qed.

(** C2: for the loop with header [H], body [X] and exit [Y], edges
    [H -> X], [H -> Y] and [X -> H] in any layout, and its
    post-dominator tree ([X]'s node below [H]'s node, that one below the
    node [nY] of the exit), the builder finishes and [H] is a member of
    its own dependent-set. *)
Theorem loop_header_self_dependent (F : Function) (H X Y : BasicBlock)
    (nH nX nY : DomTreeNode) (fuel : nat)
    (m : gmap positive (gset (option positive))) :
  cfgEdges F ≡ₚ [(H, X); (H, Y); (X, H)] →
  properlyDominates PDT X H = false →
  properlyDominates PDT Y H = true →
  properlyDominates PDT H X = true →
  findNearestCommonDominator PDT H X = Some H →
  getNode PDT H = Some nH → getNode PDT X = Some nX →
  getBlock PDT nH = Some H →
  getIDom PDT nX = Some nH → getIDom PDT nH = Some nY →
  nX ≠ nY → nH ≠ nY →
  2 ≤ fuel →
  ∃ m', getControlDependencies F PDT fuel m = Ok m'
        ∧ ∃ s, m' !! H = Some s ∧ Some H ∈ s.
Proof.
  intros Hcfg HXH HYH HHX HL HnH HnX HbH HiX HiH HXY HHY Hfuel.
  assert (getNonPDomEdges F PDT = [ {| tail := H; head := X |} ]) as HS.
  { rewrite getNonPDomEdges_filter.
    assert (filter (λ p, properlyDominates PDT p.2 p.1 = false) (cfgEdges F)
            ≡ₚ [(H, X)]) as Hperm.
    { rewrite Hcfg. rewrite !filter_cons, filter_nil. simpl.
      rewrite HXH, HYH, HHX. simpl. done. }
    apply Permutation_singleton_r in Hperm. by rewrite Hperm. }
  unfold getControlDependencies. rewrite HS. simpl.
  assert (idomPath PDT (getIDom PDT nH) (getNode PDT X) [nX; nH]) as Hp.
  { rewrite HnX, HiH. constructor; [congruence|]. rewrite HiX.
    constructor; [congruence|]. rewrite HiH. constructor. }
  rewrite (processEdge_path fuel m H X H nH [nX; nH]) by done.
  simpl. eexists. split; [done|]. rewrite lookup_insert_eq.
  eexists. split; [done|]. rewrite HbH.
  apply elem_of_union_r, elem_of_union_r, elem_of_union_l.
  by apply elem_of_singleton.
Qed.

End ControlDependenceFacts.

(** * Properties of the data dependence tracker *)

Section DataDependenceFacts.
Import DataDependence.

Context {Location NonLocalDepResult : Type}.
Variable IR : HostIR.
Variable MDA : MemoryDependenceAnalysis Location NonLocalDepResult.
Variable AA : AliasAnalysis Location.

Implicit Types (inst : positive) (st : State NonLocalDepResult).
Implicit Types (dep : MemDepResult) (d : DepInfo).

Lemma pushAll_cons inst (x : NonLocalDepResult) l m :
  pushAll inst (x :: l) m = <[inst := default [] (m !! inst) ++ x :: l]> m.
Proof.
  revert x m. induction l as [|y l IH]; intros x m; [done|].
  change (pushAll inst (x :: y :: l) m)
    with (pushAll inst (y :: l) (<[inst := default [] (m !! inst) ++ [x]]> m)).
  rewrite IH, lookup_insert_eq, insert_insert_eq. simpl.
  by rewrite <- app_assoc.
Qed.

Lemma pushAll_record inst (l : list NonLocalDepResult) m :
  default [] (pushAll inst l m !! inst) = default [] (m !! inst) ++ l.
Proof.
  destruct l as [|x l]; [by rewrite app_nil_r|].
  by rewrite pushAll_cons, lookup_insert_eq.
Qed.

Lemma pushAll_other inst (l : list NonLocalDepResult) m i :
  i ≠ inst → pushAll inst l m !! i = m !! i.
Proof.
  intros Hne. destruct l as [|x l]; [done|].
  by rewrite pushAll_cons, lookup_insert_ne.
Qed.

Lemma pushAll_dom inst (l : list NonLocalDepResult) m :
  dom (pushAll inst l m) = if l is [] then dom m else {[inst]} ∪ dom m.
Proof.
  destruct l as [|x l]; [done|]. by rewrite pushAll_cons, dom_insert_L.
Qed.

(** What [getDepInfo] returns when it returns. *)
Lemma getDepInfo_Ok dep d :
  getDepInfo dep = Ok d →
  DepInst_ d = getInst dep ∧ kindOf dep (Type_ d)
  ∧ (isNonLocal dep = false → localKind (Type_ d)).
Proof.
  unfold getDepInfo, localKind.
  destruct dep as [[] [] [] [] [] i]; simpl; intros [= <-]; simpl;
    intuition congruence.
Qed.

Lemma exactlyOne_kind dep k :
  exactlyOne dep → kindOf dep k →
  getDepInfo dep = Ok (mkDepInfo (getInst dep) k).
Proof.
  unfold exactlyOne, getDepInfo.
  destruct dep as [[] [] [] [] [] i], k; simpl; intros H1 Hk;
    done || discriminate.
Qed.

Lemma exactlyOne_local dep k :
  exactlyOne dep → kindOf dep k → k ≠ NonLocal → isNonLocal dep = false.
Proof.
  unfold exactlyOne.
  destruct dep as [[] [] [] [] [] i], k; simpl; intros H1 Hk Hne;
    done || discriminate.
Qed.

Lemma processDepResult_local inst st :
  isNonLocal (getDependency MDA inst) = false →
  processDepResult IR MDA AA inst st
  = match getDepInfo (getDependency MDA inst) with
    | Ok d => Done (storeLocal inst d st)
    | Fatal s => Aborted s st
    end.
Proof.
  intros Hl. unfold processDepResult. rewrite Hl. simpl.
  destruct (getDepInfo (getDependency MDA inst)) as [d|s] eqn:Hd; [|done].
  apply getDepInfo_Ok in Hd as (_ & _ & Hk). specialize (Hk Hl).
  unfold valid. destruct (decide (Type_ d = Invalid)) as [Hi|]; [|done].
  rewrite Hi in Hk. destruct Hk as [|[|[|]]]; discriminate.
Qed.

Lemma processDepResult_nonLocal inst st :
  nonLocalResult MDA inst →
  processDepResult IR MDA AA inst st
  = match instKind IR inst with
    | LoadInst =>
        if isUnordered IR inst
        then Done (storeNonLocal inst (queryEntries IR MDA AA inst true) st)
        else Aborted (AssertionFailed "atomic/volatile loads not handled")
               (warn "[WARNING] atomic/volatile loads are not handled" st)
    | StoreInst =>
        if isUnordered IR inst
        then Done (storeNonLocal inst (queryEntries IR MDA AA inst false) st)
        else Aborted (AssertionFailed "atomic/volatile stores not handled")
               (warn "[WARNING] atomic/volatile stores are not handled" st)
    | VAArgInst =>
        Done (storeNonLocal inst (queryEntries IR MDA AA inst false) st)
    | OtherInst => Aborted (Unreachable "Unknown memory instruction!") st
    end.
Proof.
  intros [H1 Hn]. unfold processDepResult. rewrite Hn. simpl.
  rewrite (exactlyOne_kind _ NonLocal H1 Hn). simpl.
  destruct (instKind IR inst); try done; by destruct (isUnordered IR inst).
Qed.

(** The three ways a call can leave the maps: untouched, one Local
    record written, or the oracle's entries pushed. *)
Lemma processDepResult_maps inst st :
  (LocalDeps_ (stateOf (processDepResult IR MDA AA inst st)) = LocalDeps_ st
   ∧ NonLocalDeps_ (stateOf (processDepResult IR MDA AA inst st))
     = NonLocalDeps_ st
   ∧ ∀ st', processDepResult IR MDA AA inst st ≠ Done st')
  ∨ (isNonLocal (getDependency MDA inst) = false
     ∧ ∃ d, getDepInfo (getDependency MDA inst) = Ok d
            ∧ processDepResult IR MDA AA inst st = Done (storeLocal inst d st))
  ∨ (isNonLocal (getDependency MDA inst) = true
     ∧ processDepResult IR MDA AA inst st
       = Done (storeNonLocal inst
                 (queryEntries IR MDA AA inst (queryFlag IR inst)) st)).
Proof.
  destruct (isNonLocal (getDependency MDA inst)) eqn:Hn.
  - unfold processDepResult, queryFlag, queryEntries. rewrite Hn. simpl.
    destruct (getDepInfo (getDependency MDA inst)) as [d|s]; [|by left].
    destruct (decide (Type_ d = NonLocal)); [|by left].
    destruct (instKind IR inst); try destruct (isUnordered IR inst);
      simpl; (by left) || (right; right; done).
  - rewrite processDepResult_local by done.
    destruct (getDepInfo (getDependency MDA inst)) as [d|s]; [|by left].
    right; left. eauto.
Qed.

Lemma processDepResult_localKindsOnly inst st :
  localKindsOnly st →
  localKindsOnly (stateOf (processDepResult IR MDA AA inst st)).
Proof.
  intros Hst.
  destruct (processDepResult_maps inst st)
    as [(HL & _ & _)|[(Hn & d & Hd & ->)|(_ & ->)]].
  - unfold localKindsOnly. by rewrite HL.
  - intros i d' Hi. simpl in Hi.
    destruct (decide (inst = i)) as [->|Hne].
    + rewrite lookup_insert_eq in Hi. injection Hi as <-.
      by apply getDepInfo_Ok in Hd as (_ & _ & Hk); apply Hk.
    + rewrite lookup_insert_ne in Hi by done. by eapply Hst.
  - done.
Qed.

Lemma processDepResult_noInvalidStored inst st :
  noInvalidStored st →
  noInvalidStored (stateOf (processDepResult IR MDA AA inst st)).
Proof.
  intros Hst.
  destruct (processDepResult_maps inst st)
    as [(HL & _ & _)|[(Hn & d & Hd & ->)|(_ & ->)]].
  - unfold noInvalidStored. by rewrite HL.
  - intros i d' Hi. simpl in Hi.
    destruct (decide (inst = i)) as [->|Hne].
    + rewrite lookup_insert_eq in Hi. injection Hi as <-.
      apply getDepInfo_Ok in Hd as (_ & Hk & _). intros Hinv.
      by rewrite Hinv in Hk.
    + rewrite lookup_insert_ne in Hi by done. by eapply Hst.
  - done.
Qed.

Lemma getDataDependencies_localKindsOnly F :
  ∀ st, localKindsOnly st →
        localKindsOnly (stateOf (getDataDependencies IR MDA AA F st)).
Proof.
  induction F as [|inst F IH]; intros st Hst; simpl; [done|].
  destruct (negb (mayReadFromMemory IR inst)
            && negb (mayWriteToMemory IR inst)); [by apply IH|].
  pose proof (processDepResult_localKindsOnly inst st Hst) as Hstep.
  destruct (processDepResult IR MDA AA inst st) as [st'|s st'];
    [by apply IH|done].
Qed.

Lemma getDataDependencies_noInvalidStored F :
  ∀ st, noInvalidStored st →
        noInvalidStored (stateOf (getDataDependencies IR MDA AA F st)).
Proof.
  induction F as [|inst F IH]; intros st Hst; simpl; [done|].
  destruct (negb (mayReadFromMemory IR inst)
            && negb (mayWriteToMemory IR inst)); [by apply IH|].
  pose proof (processDepResult_noInvalidStored inst st Hst) as Hstep.
  destruct (processDepResult IR MDA AA inst st) as [st'|s st'];
    [by apply IH|done].
Qed.

(** C6: when exactly one of the five predicates of an oracle result
    holds, [getDepInfo] returns the record tagged with the kind of that
    predicate and carrying the oracle's instruction pointer; the kind is
    not [Invalid]; for an instruction with that result and a kind other
    than [NonLocal] this very record is stored in the Local map; and no
    run of the tracker, whatever the oracle answers, leaves an
    [Invalid] record in the Local map. *)
Theorem classification_one_to_one dep (k : DepType) :
  exactlyOne dep → kindOf dep k →
  getDepInfo dep = Ok (mkDepInfo (getInst dep) k)
  ∧ k ≠ Invalid
  ∧ (∀ inst st,
       getDependency MDA inst = dep → k ≠ NonLocal →
       processDepResult IR MDA AA inst st
       = Done (storeLocal inst (mkDepInfo (getInst dep) k) st))
  ∧ (∀ (F : list positive) st,
       noInvalidStored st →
       noInvalidStored (stateOf (getDataDependencies IR MDA AA F st))).
Proof.
  intros H1 Hk. split; [by apply exactlyOne_kind|].
  split; [by intros ->|].
  split; [|by intros F st; apply getDataDependencies_noInvalidStored].
  intros inst st <- Hne.
  rewrite processDepResult_local by by eapply exactlyOne_local.
  by rewrite (exactlyOne_kind _ k).
Qed.

(** C10: a run of the tracker keeps every Local-map record's kind in
    Clobber, Def, NonFuncLocal, Unknown, so none has kind NonLocal; and
    an instruction whose oracle result is non-local leaves the Local map
    as it was. *)
Theorem local_map_holds_local_kinds (F : list positive) st :
  localKindsOnly st →
  localKindsOnly (stateOf (getDataDependencies IR MDA AA F st))
  ∧ (∀ i d, LocalDeps_ (stateOf (getDataDependencies IR MDA AA F st)) !! i
            = Some d → Type_ d ≠ NonLocal)
  ∧ (∀ inst, isNonLocal (getDependency MDA inst) = true →
       LocalDeps_ (stateOf (processDepResult IR MDA AA inst st))
       = LocalDeps_ st).
Proof.
  intros Hst.
  pose proof (getDataDependencies_localKindsOnly F st Hst) as Hrun.
  split; [done|]. split.
  - intros i d Hi Hnl. apply Hrun in Hi. rewrite Hnl in Hi.
    destruct Hi as [|[|[|]]]; discriminate.
  - intros inst Hn.
    destruct (processDepResult_maps inst st)
      as [(HL & _ & _)|[(Hl & _)|(_ & ->)]]; [done|congruence|done].
Qed.

(** C4: a load or store that is not unordered and whose oracle result
    is non-local ends processing with the failed assertion on
    unsupported atomic/volatile accesses, after one warning line was
    written; both maps are as they were before, and the run over the
    function ends there with the same signal. *)
Theorem atomic_access_is_fatal inst st :
  instKind IR inst = LoadInst ∨ instKind IR inst = StoreInst →
  isUnordered IR inst = false →
  nonLocalResult MDA inst →
  ∃ st',
    processDepResult IR MDA AA inst st
    = Aborted (AssertionFailed
                 (if decide (instKind IR inst = LoadInst)
                  then "atomic/volatile loads not handled"
                  else "atomic/volatile stores not handled")) st'
    ∧ errs st'
      = errs st ++ [if decide (instKind IR inst = LoadInst)
                    then "[WARNING] atomic/volatile loads are not handled"
                    else "[WARNING] atomic/volatile stores are not handled"]
    ∧ LocalDeps_ st' = LocalDeps_ st
    ∧ NonLocalDeps_ st' = NonLocalDeps_ st
    ∧ ∀ F : list positive,
        accessesMemory IR inst →
        getDataDependencies IR MDA AA (inst :: F) st
        = processDepResult IR MDA AA inst st.
Proof.
  intros Hkind Hord Hres.
  assert (∀ F : list positive, accessesMemory IR inst →
            ∀ s st', processDepResult IR MDA AA inst st = Aborted s st' →
              getDataDependencies IR MDA AA (inst :: F) st = Aborted s st')
    as Hpass.
  { intros F Hacc s st' Hstep. simpl. rewrite Hstep.
    by destruct Hacc as [-> | ->], (mayReadFromMemory IR inst). }
  revert Hpass. rewrite processDepResult_nonLocal by done.
  rewrite Hord. destruct Hkind as [-> | ->]; simpl; intros Hpass;
    eexists; (split; [done|]); split_and!; try done;
    intros F Hacc; by eapply Hpass.
Qed.

(** Whether a call on a non-local result ends normally does not depend
    on the state it starts from. *)
Lemma processDepResult_nonLocal_Done inst st st' :
  isNonLocal (getDependency MDA inst) = true →
  processDepResult IR MDA AA inst st = Done st' →
  ∀ st2, processDepResult IR MDA AA inst st2
         = Done (storeNonLocal inst
                   (queryEntries IR MDA AA inst (queryFlag IR inst)) st2).
Proof.
  intros Hn. unfold processDepResult, queryFlag, queryEntries.
  rewrite Hn. simpl.
  destruct (getDepInfo (getDependency MDA inst)) as [d|s]; [|done].
  destruct (decide (Type_ d = NonLocal)); [|done].
  destruct (instKind IR inst); try destruct (isUnordered IR inst);
    simpl; done.
Qed.

(** C7: a call that ends normally on a local result writes the new
    record over whatever the Local map held for the instruction and
    leaves the Non-Local map alone; on a non-local result it extends
    the instruction's Non-Local record at its end by the oracle's
    entries in the order reported, touches no other record, and a
    second call for the same instruction extends the record once
    more. *)
Theorem local_overwrites_nonlocal_appends inst st st' :
  processDepResult IR MDA AA inst st = Done st' →
  (isNonLocal (getDependency MDA inst) = false →
   ∃ d, getDepInfo (getDependency MDA inst) = Ok d
        ∧ LocalDeps_ st' = <[inst := d]> (LocalDeps_ st)
        ∧ LocalDeps_ st' !! inst = Some d
        ∧ NonLocalDeps_ st' = NonLocalDeps_ st)
  ∧ (isNonLocal (getDependency MDA inst) = true →
     default [] (NonLocalDeps_ st' !! inst)
     = default [] (NonLocalDeps_ st !! inst)
       ++ queryEntries IR MDA AA inst (queryFlag IR inst)
     ∧ (∀ i, i ≠ inst → NonLocalDeps_ st' !! i = NonLocalDeps_ st !! i)
     ∧ LocalDeps_ st' = LocalDeps_ st
     ∧ ∃ st'',
         processDepResult IR MDA AA inst st' = Done st''
         ∧ default [] (NonLocalDeps_ st'' !! inst)
           = (default [] (NonLocalDeps_ st !! inst)
              ++ queryEntries IR MDA AA inst (queryFlag IR inst))
             ++ queryEntries IR MDA AA inst (queryFlag IR inst)).
Proof.
  intros Hdone. split; intros Hn.
  - rewrite processDepResult_local in Hdone by done.
    destruct (getDepInfo (getDependency MDA inst)) as [d|s]; [|done].
    injection Hdone as <-. exists d. simpl.
    by rewrite lookup_insert_eq.
  - pose proof (processDepResult_nonLocal_Done _ _ _ Hn Hdone) as Hany.
    rewrite Hany in Hdone. injection Hdone as <-. simpl.
    split; [apply pushAll_record|].
    split; [by intros i Hi; apply pushAll_other|].
    split; [done|]. eexists. split; [apply Hany|].
    simpl. by rewrite !pushAll_record.
Qed.

(** C1, as the code has it: for a va_arg instruction whose oracle
    result is non-local, the tracker issues the non-local query with the
    direction flag false, which is the flag it uses for a store and not
    the one ([true]) it uses for a load. *)
Theorem vaarg_query_uses_store_flag inst st :
  instKind IR inst = VAArgInst → nonLocalResult MDA inst →
  processDepResult IR MDA AA inst st
  = Done (storeNonLocal inst
            (getNonLocalPointerDependency MDA (getLocation AA inst) false
               (getParent IR inst)) st)
  ∧ ∀ inst', nonLocalResult MDA inst' → isUnordered IR inst' = true →
      (instKind IR inst' = StoreInst →
       processDepResult IR MDA AA inst' st
       = Done (storeNonLocal inst'
                 (getNonLocalPointerDependency MDA (getLocation AA inst')
                    false (getParent IR inst')) st))
      ∧ (instKind IR inst' = LoadInst →
         processDepResult IR MDA AA inst' st
         = Done (storeNonLocal inst'
                   (getNonLocalPointerDependency MDA (getLocation AA inst')
                      true (getParent IR inst')) st)).
Proof.
  intros Hk Hres. split.
  - rewrite processDepResult_nonLocal by done. by rewrite Hk.
  - intros inst' Hres' Hord.
    split; intros Hk'; rewrite processDepResult_nonLocal by done;
      by rewrite Hk', Hord.
Qed.

Lemma keysAgree_empty : keysAgree IR MDA AA emptyState.
Proof.
  split; intros i Hi; simpl in Hi; rewrite dom_empty_L in Hi;
    by apply not_elem_of_empty in Hi.
Qed.

Lemma processDepResult_keysAgree inst st st' :
  processDepResult IR MDA AA inst st = Done st' →
  keysAgree IR MDA AA st →
  keysAgree IR MDA AA st' ∧ domGrows st st'
  ∧ (isNonLocal (getDependency MDA inst) = false →
     inst ∈ dom (LocalDeps_ st'))
  ∧ (isNonLocal (getDependency MDA inst) = true →
     queryEntries IR MDA AA inst (queryFlag IR inst) ≠ [] →
     inst ∈ dom (NonLocalDeps_ st')).
Proof.
  intros Hdone [HL HN].
  destruct (processDepResult_maps inst st)
    as [(_ & _ & Hno)|[(Hn & d & Hd & Heq)|(Hn & Heq)]];
    [by destruct (Hno st')| |]; rewrite Heq in Hdone;
    injection Hdone as <-; unfold keysAgree, domGrows; simpl.
  - rewrite dom_insert_L. split_and!.
    + intros i [->%elem_of_singleton|Hi]%elem_of_union; auto.
    + done.
    + apply union_subseteq_r.
    + done.
    + intros _. by apply elem_of_union_l, elem_of_singleton.
    + congruence.
  - rewrite pushAll_dom.
    destruct (queryEntries IR MDA AA inst (queryFlag IR inst)) as [|x l]
      eqn:Hq.
    + split_and!; done || congruence.
    + split_and!; try done.
      * intros i [->%elem_of_singleton|Hi]%elem_of_union;
          [split; [done|by rewrite Hq]|by apply HN].
      * apply union_subseteq_r.
      * congruence.
      * intros _ _. by apply elem_of_union_l, elem_of_singleton.
Qed.

Lemma getDataDependencies_keysAgree (F : list positive) :
  ∀ st st',
    getDataDependencies IR MDA AA F st = Done st' →
    keysAgree IR MDA AA st →
    keysAgree IR MDA AA st' ∧ domGrows st st'
    ∧ ∀ inst, inst ∈ F → accessesMemory IR inst →
        (isNonLocal (getDependency MDA inst) = false →
         inst ∈ dom (LocalDeps_ st'))
        ∧ (isNonLocal (getDependency MDA inst) = true →
           queryEntries IR MDA AA inst (queryFlag IR inst) ≠ [] →
           inst ∈ dom (NonLocalDeps_ st')).
Proof.
  induction F as [|i F IH]; intros st st' Hrun Hst; simpl in Hrun.
  - injection Hrun as <-. split_and!; try done.
    by intros inst Hin%elem_of_nil.
  - destruct (negb (mayReadFromMemory IR i) && negb (mayWriteToMemory IR i))
      eqn:Hskip.
    + destruct (IH _ _ Hrun Hst) as (Hagree & Hgrow & Hin).
      split; [done|]. split; [done|].
      intros inst [->|Hmem]%elem_of_cons Hacc; [|by apply Hin].
      apply andb_prop in Hskip as [Hr%negb_true_iff Hw%negb_true_iff].
      destruct Hacc; congruence.
    + destruct (processDepResult IR MDA AA i st) as [st1|s st1] eqn:Hstep;
        [|done].
      destruct (processDepResult_keysAgree _ _ _ Hstep Hst)
        as (Hagree1 & [HgL HgN] & HiL & HiN).
      destruct (IH _ _ Hrun Hagree1) as (Hagree & [HgL' HgN'] & Hin).
      split; [done|]. split; [split; set_solver|].
      intros inst [->|Hmem]%elem_of_cons Hacc; [|by apply Hin].
      split; [intros Hn; apply HgL'; auto|intros Hn Hq; apply HgN'; auto].
Qed.

(** C3, as the code has it: after a run of the tracker from empty maps
    that ends normally, a processed memory access is never a key of
    both maps; with a local oracle result it is a key of the Local map
    only; with a non-local result it is not a key of the Local map, and
    it is a key of the Non-Local map exactly when the oracle reported at
    least one entry. *)
Theorem keyed_by_oracle_answer (F : list positive) st' inst :
  getDataDependencies IR MDA AA F emptyState = Done st' →
  inst ∈ F → accessesMemory IR inst →
  (isNonLocal (getDependency MDA inst) = false →
   inst ∈ dom (LocalDeps_ st') ∧ inst ∉ dom (NonLocalDeps_ st'))
  ∧ (isNonLocal (getDependency MDA inst) = true →
     (inst ∉ dom (LocalDeps_ st'))
     ∧ (inst ∈ dom (NonLocalDeps_ st')
        ↔ queryEntries IR MDA AA inst (queryFlag IR inst) ≠ [])).
Proof.
  intros Hrun Hin Hacc.
  destruct (getDataDependencies_keysAgree F _ _ Hrun keysAgree_empty)
    as ([HL HN] & _ & Hkeys).
  destruct (Hkeys inst Hin Hacc) as [HinL HinN].
  split; intros Hn.
  - split; [auto|]. intros Hk. apply HN in Hk as [Hk _]. congruence.
  - split; [intros Hk; apply HL in Hk; congruence|].
    split; [by intros [_ Hq]%HN|auto].
Qed.

End DataDependenceFacts.

(** ** The properties at the example graphs *)

Section ControlDependenceExamples.
Import ControlDependence.

Lemma diamondPDT_pdtOf : pdtOf diamondCFG diamondPDT.
Proof.
  split.
  - intros B nB. unfold diamondPDT, tablePDT. simpl.
    case_bool_decide; congruence.
  - intros A B nA nB HA HB Hi.
    assert (nA = A) as ->.
    { revert HA. unfold diamondPDT, tablePDT. simpl.
      case_bool_decide; congruence. }
    assert (nB = B) as ->.
    { revert HB. unfold diamondPDT, tablePDT. simpl.
      case_bool_decide; congruence. }
    assert ((A, B) ∈ [(1, 2); (2, 5); (3, 5); (4, 5); (5, 6)]%positive) as Hin.
    { apply (elem_of_list_to_map_2 (M := gmap positive)). exact Hi. }
    repeat (apply elem_of_cons in Hin as [[= -> ->]|Hin]; [by vm_compute|]).
    by apply elem_of_nil in Hin.
  - intros A succs nA HA HnA Hroot.
    assert (nA = A) as ->.
    { revert HnA. unfold diamondPDT, tablePDT. simpl.
      case_bool_decide; congruence. }
    unfold diamondCFG in HA.
    repeat (apply elem_of_cons in HA as [[= -> ->]|HA];
            [by vm_compute in Hroot|]).
    by apply elem_of_nil in HA.
Qed.

(** The end-to-end scenario: [A]'s set is [{B, C}], no other key. *)
Example diamond_controlDeps :
  getControlDependencies diamondCFG diamondPDT 1 ∅
  = Ok {[ 2%positive := {[ Some 3%positive; Some 4%positive ]} ]}.
Proof. by vm_compute. Qed.

(** The loop: the header's set holds the body and the header. *)
Example loop_controlDeps :
  getControlDependencies loopCFG loopPDT 2 ∅
  = Ok {[ 1%positive := {[ Some 2%positive; Some 1%positive ]} ]}.
Proof. by vm_compute. Qed.

(** A straight line [1 -> 2 -> 3] has no selected edge and no key. *)
Example straight_line_controlDeps :
  getControlDependencies [(1, [2]); (2, [3]); (3, [])]%positive
    (tablePDT 3 (list_to_map [(1, 2); (2, 3)])%positive) 0 ∅
  = Ok ∅.
Proof. by vm_compute. Qed.

(** The walk of the loop edge needs its two steps. *)
Example loop_out_of_fuel :
  getControlDependencies loopCFG loopPDT 1 ∅ = Fatal OutOfFuel.
Proof. by vm_compute. Qed.

Lemma walk_adds_chain_below_parent_witness :
  processEdge loopPDT 2 ∅ {| tail := 1; head := 2 |}
  = Ok (<[1%positive := default ∅ ((∅ : gmap positive (gset (option positive))) !! 1%positive)
            ∪ list_to_set (getBlock loopPDT <$> [2; 1]%positive)]> ∅)
  ∧ (∀ n, n ∈ [2; 1]%positive → Some n ≠ getIDom loopPDT 1)
  ∧ (∀ nB, getNode loopPDT 2 = Some nB → Some nB ≠ getIDom loopPDT 1 →
       [2; 1]%positive !! 0 = Some nB).
Proof.
  apply (walk_adds_chain_below_parent loopPDT 2 ∅ 1 2 1 1 [2; 1]%positive).
  - reflexivity.
  - reflexivity.
  - apply idomPath_step; [vm_compute; discriminate|].
    apply idomPath_step; [vm_compute; discriminate|].
    apply idomPath_stop.
  - simpl. lia.
Defined.

(** C5, at an edge the claim covers and the builder fails on.  In the
    function whose entry block 1 branches to block 2, which loops on
    itself for ever, and to the exit block 3, block 2 reaches no exit
    and so has no node in the post-dominator tree.  The tree is a
    post-dominator tree of the function; the edge 1 -> 2 is selected
    and has a nearest common ancestor; block 1 has a node, whose parent
    is the node of 3.  The walk starts at the null node of block 2,
    which is not the parent of 1, and dereferences it: from every map
    and at every fuel the edge, and with it the whole builder run, ends
    in a null dereference; no block is added to the set of 1 and the
    walk does not stop at the parent of 1. *)
Theorem walk_from_head_outside_tree_crashes :
  pdtOf strayCFG strayPDT
  ∧ {| tail := 1; head := 2 |} ∈ getNonPDomEdges strayCFG strayPDT
  ∧ findNearestCommonDominator strayPDT 1 2 = Some 1%positive
  ∧ getNode strayPDT 1 = Some 1%positive
  ∧ getIDom strayPDT 1 = Some 3%positive
  ∧ getNode strayPDT 2 = None
  ∧ ∀ (fuel : nat) (controlDeps_ : gmap positive (gset (option positive))),
      processEdge strayPDT fuel controlDeps_ {| tail := 1; head := 2 |}
      = Fatal NullDereference
      ∧ getControlDependencies strayCFG strayPDT fuel controlDeps_
        = Fatal NullDereference.
Proof.
  split_and!; try reflexivity.
  - split.
    + intros B nB H. unfold strayPDT in *. simpl in *.
      case_bool_decide; congruence.
    + intros A B nA nB HA HB Hi. unfold strayPDT in *. simpl in *.
      repeat case_bool_decide; naive_solver.
    + intros A succs nA Hin HA Hi. unfold strayPDT, strayCFG in *.
      simpl in *. repeat case_bool_decide; set_solver.
  - vm_compute. set_solver.
  - intros fuel controlDeps_. split; destruct fuel; reflexivity.
Qed.

Lemma second_run_identical_witness :
  getControlDependencies diamondCFG diamondPDT 3 ∅
  = Ok {[ 2%positive := {[ Some 3%positive; Some 4%positive ]} ]}
  ∧ getControlDependencies diamondCFG diamondPDT 3
      {[ 2%positive := {[ Some 3%positive; Some 4%positive ]} ]}
    = Ok {[ 2%positive := {[ Some 3%positive; Some 4%positive ]} ]}.
Proof.
  split; [by vm_compute|].
  apply (second_run_identical diamondPDT diamondCFG 3 ∅). by vm_compute.
Defined.

Lemma keys_have_dependents_witness :
  getControlDependencies diamondCFG diamondPDT 3 ∅
  = Ok {[ 2%positive := {[ Some 3%positive; Some 4%positive ]} ]}
  ∧ keysNonEmpty {[ 2%positive := {[ Some 3%positive; Some 4%positive ]} ]}.
Proof.
  split; [by vm_compute|].
  apply (keys_have_dependents diamondPDT diamondCFG 3 ∅).
  - exact diamondPDT_pdtOf.
  - intros A s Hs. by rewrite lookup_empty in Hs.
  - by vm_compute.
Defined.

Lemma loop_header_self_dependent_witness :
  ∃ m', getControlDependencies loopCFG loopPDT 2 ∅ = Ok m'
        ∧ ∃ s, m' !! 1%positive = Some s ∧ Some 1%positive ∈ s.
Proof.
  apply (loop_header_self_dependent loopPDT loopCFG 1 2 3 1 2 3 2 ∅);
    try reflexivity; try discriminate; try lia.
Defined.

End ControlDependenceExamples.

(** ** The properties at the example instruction stream *)

Section DataDependenceExamples.
Import DataDependence.

Lemma classification_one_to_one_witness :
  exactlyOne (clobberBy 2) ∧ kindOf (clobberBy 2) Clobber
  ∧ getDepInfo (clobberBy 2) = Ok (mkDepInfo (Some 2%positive) Clobber)
  ∧ processDepResult exampleIR exampleMDA exampleAA 5 emptyState
    = Done (storeLocal 5 (mkDepInfo (Some 2%positive) Clobber) emptyState).
Proof.
  split; [reflexivity|]. split; [reflexivity|].
  destruct (classification_one_to_one exampleIR exampleMDA exampleAA
              (clobberBy 2) Clobber) as (Hinfo & _ & Hstore & _);
    [reflexivity|reflexivity|].
  split; [exact Hinfo|]. by apply Hstore.
Defined.

Lemma local_map_holds_local_kinds_witness :
  localKindsOnly
    (stateOf (getDataDependencies exampleIR exampleMDA exampleAA
                [6; 2; 1; 3; 5]%positive emptyState)).
Proof.
  apply (local_map_holds_local_kinds exampleIR exampleMDA exampleAA
           [6; 2; 1; 3; 5]%positive emptyState).
  intros i d Hi. simpl in Hi. by rewrite lookup_empty in Hi.
Defined.

Lemma atomic_access_is_fatal_witness :
  ∃ st',
    processDepResult exampleIR exampleMDA exampleAA 4 emptyState
    = Aborted (AssertionFailed "atomic/volatile loads not handled") st'
    ∧ errs st' = ["[WARNING] atomic/volatile loads are not handled"]
    ∧ LocalDeps_ st' = ∅
    ∧ NonLocalDeps_ st' = ∅.
Proof.
  destruct (atomic_access_is_fatal exampleIR exampleMDA exampleAA
              4 emptyState) as (st' & Hrun & Herrs & HL & HN & _).
  - left. reflexivity.
  - reflexivity.
  - split; reflexivity.
  - exists st'. split; [exact Hrun|]. split; [exact Herrs|].
    split; [exact HL|exact HN].
Defined.

Lemma local_overwrites_nonlocal_appends_witness :
  ∃ st'',
    processDepResult exampleIR exampleMDA exampleAA 1
      (storeNonLocal 1 [(1, 7)]%positive emptyState) = Done st''
    ∧ default [] (NonLocalDeps_ st'' !! 1%positive)
      = [(1, 7); (1, 7)]%positive.
Proof.
  destruct (local_overwrites_nonlocal_appends exampleIR exampleMDA exampleAA
              1 emptyState (storeNonLocal 1 [(1, 7)]%positive emptyState))
    as [_ Hnl]; [reflexivity|].
  destruct Hnl as (_ & _ & _ & Hagain); [reflexivity|exact Hagain].
Defined.

Lemma vaarg_query_uses_store_flag_witness :
  processDepResult exampleIR exampleMDA exampleAA 3 emptyState
  = Done (storeNonLocal 3 [(3, 8); (3, 9)]%positive emptyState).
Proof.
  destruct (vaarg_query_uses_store_flag exampleIR exampleMDA exampleAA
              3 emptyState) as [Hva _];
    [reflexivity|split; reflexivity|exact Hva].
Defined.

(** C1, as stated, fails: with an oracle whose answer depends on the
    direction flag, the record stored for a va_arg is not the answer to
    the read-oriented query. *)
Lemma vaarg_query_not_read_oriented :
  ¬ (∀ (IR : HostIR)
       (MDA : MemoryDependenceAnalysis positive (positive * positive))
       (AA : AliasAnalysis positive) (inst : positive)
       (st : State (positive * positive)),
       instKind IR inst = VAArgInst → nonLocalResult MDA inst →
       processDepResult IR MDA AA inst st
       = Done (storeNonLocal inst
                 (getNonLocalPointerDependency MDA (getLocation AA inst) true
                    (getParent IR inst)) st)).
Proof.
  intros Hclaim.
  specialize (Hclaim exampleIR exampleMDA exampleAA 3%positive emptyState
                eq_refl (conj eq_refl eq_refl)).
  apply (f_equal (λ o, NonLocalDeps_ (stateOf o) !! 3%positive)) in Hclaim.
  vm_compute in Hclaim. discriminate Hclaim.
Qed.

Lemma keyed_by_oracle_answer_witness :
  (1%positive ∉ dom (LocalDeps_
      (stateOf (getDataDependencies exampleIR exampleMDA exampleAA
                  [6; 2; 1; 3; 5]%positive emptyState))))
  ∧ 1%positive ∈ dom (NonLocalDeps_
      (stateOf (getDataDependencies exampleIR exampleMDA exampleAA
                  [6; 2; 1; 3; 5]%positive emptyState))).
Proof.
  destruct (keyed_by_oracle_answer exampleIR exampleMDA exampleAA
              [6; 2; 1; 3; 5]%positive
              (stateOf (getDataDependencies exampleIR exampleMDA exampleAA
                          [6; 2; 1; 3; 5]%positive emptyState))
              1%positive) as [_ Hnl].
  - by vm_compute.
  - apply list_elem_of_In. simpl. tauto.
  - left. reflexivity.
  - destruct Hnl as [HL HN]; [reflexivity|].
    split; [exact HL|]. apply HN. discriminate.
Defined.

(** C3, as stated, fails: a load whose non-local query finds nothing is
    processed without a fatal signal and is a key of neither map. *)
Lemma empty_answer_leaves_no_key :
  ¬ (∀ (IR : HostIR)
       (MDA : MemoryDependenceAnalysis positive (positive * positive))
       (AA : AliasAnalysis positive) (F : list positive)
       (st' : State (positive * positive)) (inst : positive),
       getDataDependencies IR MDA AA F emptyState = Done st' →
       inst ∈ F → accessesMemory IR inst →
       (inst ∈ dom (LocalDeps_ st') ∧ inst ∉ dom (NonLocalDeps_ st'))
       ∨ ((inst ∉ dom (LocalDeps_ st')) ∧ inst ∈ dom (NonLocalDeps_ st'))).
Proof.
  intros Hclaim.
  destruct (Hclaim exampleIR silentMDA exampleAA [1%positive] emptyState
              1%positive) as [[Hin _]|[_ Hin]].
  - reflexivity.
  - by apply list_elem_of_In; left.
  - left. reflexivity.
  - simpl in Hin. rewrite dom_empty_L in Hin.
    by apply not_elem_of_empty in Hin.
  - simpl in Hin. rewrite dom_empty_L in Hin.
    by apply not_elem_of_empty in Hin.
Qed.

End DataDependenceExamples.

(** * Further properties of the control dependence builder *)

Section ControlDependenceMore.
Import ControlDependence.

Variable PDT : PostDominatorTree.

Lemma mark_comm (A B : positive) (X Y : gset (option positive))
    (m : gmap positive (gset (option positive))) :
  mark A X (mark B Y m) = mark B Y (mark A X m).
Proof.
  unfold mark. destruct (decide (A = B)) as [->|Hne].
  - rewrite !lookup_insert_eq, !insert_insert_eq. simpl. f_equal.
    by rewrite <- !(assoc_L (∪)), (comm_L (∪) X Y).
  - rewrite !lookup_insert_ne by done. by apply insert_insert_ne.
Qed.

(** What one edge does to the map does not depend on the map. *)
Lemma processEdge_transfer fuel m e m' :
  processEdge PDT fuel m e = Ok m' →
  ∃ f, (∀ m0, processEdge PDT fuel m0 e = Ok (f m0))
       ∧ ((∀ m0, f m0 = m0) ∨ ∃ X, ∀ m0, f m0 = mark (tail e) X m0).
Proof.
  intros He. destruct (processEdge_effect _ _ _ _ _ He) as [Hskip|[X Hmark]].
  - exists id. split; [done|by left].
  - exists (mark (tail e) X). split; [done|right; by exists X].
Qed.

Lemma processEdge_swap fuel e1 e2 m m1 m2 :
  processEdge PDT fuel m e1 = Ok m1 →
  processEdge PDT fuel m1 e2 = Ok m2 →
  ∃ m1', processEdge PDT fuel m e2 = Ok m1'
         ∧ processEdge PDT fuel m1' e1 = Ok m2.
Proof.
  intros H1 H2.
  destruct (processEdge_transfer _ _ _ _ H1) as (f1 & Hf1 & Hs1).
  destruct (processEdge_transfer _ _ _ _ H2) as (f2 & Hf2 & Hs2).
  rewrite Hf1 in H1. injection H1 as <-.
  rewrite Hf2 in H2. injection H2 as <-.
  exists (f2 m). split; [done|]. rewrite Hf1. f_equal.
  destruct Hs1 as [Hid1|[X1 HX1]], Hs2 as [Hid2|[X2 HX2]].
  - by rewrite !Hid1.
  - by rewrite !Hid1.
  - by rewrite !Hid2.
  - rewrite !HX1, !HX2. apply mark_comm.
Qed.

Lemma updateControlDependencies_Permutation fuel S S' :
  S ≡ₚ S' →
  ∀ m m1, updateControlDependencies PDT fuel S m = Ok m1 →
          updateControlDependencies PDT fuel S' m = Ok m1.
Proof.
  induction 1 as [|e S S' _ IH|e2 e1 S|S S' S'' _ IH1 _ IH2];
    intros m m1 Hrun.
  - done.
  - simpl in *. destruct (processEdge PDT fuel m e) as [m'|]; [|done].
    simpl in *. by apply IH.
  - simpl in *.
    destruct (processEdge PDT fuel m e1) as [ma|] eqn:H1; [|done].
    simpl in Hrun.
    destruct (processEdge PDT fuel ma e2) as [mb|] eqn:H2; [|done].
    simpl in Hrun.
    destruct (processEdge_swap _ _ _ _ _ _ H1 H2) as (m1' & -> & Hb).
    simpl. by rewrite Hb.
  - by apply IH2, IH1.
Qed.

Lemma updateControlDependencies_dom fuel S :
  ∀ m m',
    updateControlDependencies PDT fuel S m = Ok m' →
    ∀ A, A ∈ dom m' →
      A ∈ dom m
      ∨ ∃ e, e ∈ S ∧ tail e = A
             ∧ is_Some (findNearestCommonDominator PDT (tail e) (head e)).
Proof.
  induction S as [|e S IH]; intros m m' Hrun A HA; simpl in Hrun.
  - injection Hrun as <-. by left.
  - destruct (processEdge PDT fuel m e) as [m1|] eqn:He; [|done].
    simpl in Hrun. destruct (IH _ _ Hrun A HA) as [HA1|(e' & He' & Ht & HL)].
    + unfold processEdge in He.
      destruct (findNearestCommonDominator PDT (tail e) (head e)) as [L|]
        eqn:HL; [|injection He as <-; by left].
      destruct (getNode PDT (tail e)) as [nA|]; [|done].
      destruct (walkUp PDT fuel (getNode PDT (head e)) (getIDom PDT nA)
                  (default ∅ (m !! tail e))) as [s|]; [|done].
      simpl in He. injection He as <-.
      rewrite dom_insert_L in HA1.
      apply elem_of_union in HA1 as [->%elem_of_singleton|HA1]; [|by left].
      right. exists e. rewrite HL. split; [by left|]. by split.
    + right. exists e'. split; [by right|]. by split.
Qed.

(** X1: an edge is among the edges the builder selects exactly when it
    is a CFG edge whose head does not properly post-dominate its
    tail. *)
Theorem selected_iff_not_postdominated (F : Function) (A B : BasicBlock) :
  {| tail := A; head := B |} ∈ getNonPDomEdges F PDT
  ↔ (A, B) ∈ cfgEdges F ∧ properlyDominates PDT B A = false.
Proof.
  rewrite getNonPDomEdges_filter, list_elem_of_fmap. split.
  - intros ([A' B'] & [= -> ->] & Hin).
    apply list_elem_of_filter in Hin as [Hsel Hin]. by split.
  - intros [Hin Hsel]. exists (A, B). split; [done|].
    by apply list_elem_of_filter.
Qed.

(** X2: when the head of every CFG edge properly post-dominates its
    tail (a straight line, for one), the builder returns the map it was
    given, whatever the fuel. *)
Theorem no_selected_edge_no_change (F : Function) (fuel : nat)
    (m : gmap positive (gset (option positive))) :
  (∀ A B, (A, B) ∈ cfgEdges F → properlyDominates PDT B A = true) →
  getControlDependencies F PDT fuel m = Ok m.
Proof.
  intros Hall. unfold getControlDependencies.
  rewrite getNonPDomEdges_filter.
  replace (filter (λ p, properlyDominates PDT p.2 p.1 = false) (cfgEdges F))
    with (@nil (positive * positive)); [done|].
  symmetry. induction (cfgEdges F) as [|[A B] l IH]; [done|].
  rewrite filter_cons_False.
  - apply IH. intros A' B' Hin. apply Hall. by right.
  - simpl. rewrite (Hall A B) by by left. done.
Qed.

(** X3: a run that finishes never removes a key or a member of a set,
    and every key it adds is the tail of a selected edge that has a
    nearest common ancestor. *)
Theorem build_grows_from_selected_tails (F : Function) (fuel : nat)
    (m m' : gmap positive (gset (option positive))) :
  getControlDependencies F PDT fuel m = Ok m' →
  grows m m'
  ∧ ∀ A, A ∈ dom m' →
      A ∈ dom m
      ∨ ∃ B, (A, B) ∈ cfgEdges F
             ∧ properlyDominates PDT B A = false
             ∧ is_Some (findNearestCommonDominator PDT A B).
Proof.
  unfold getControlDependencies. intros Hrun. split.
  - by apply updateControlDependencies_absorbed in Hrun as [Hg _].
  - intros A HA.
    destruct (updateControlDependencies_dom _ _ _ _ Hrun A HA)
      as [Hm|(e & He & <- & HL)]; [by left|].
    right. exists (head e). destruct e as [A' B']. simpl in *.
    rewrite getNonPDomEdges_filter, list_elem_of_fmap in He.
    destruct He as ([A0 B0] & [= -> ->] & Hin).
    apply list_elem_of_filter in Hin as [Hsel Hin]. by split_and!.
Qed.

(** X4: the result does not depend on the order in which the CFG edges
    are met: two layouts of a function with the same edges, on which the
    builder finishes for one, give the same map. *)
Theorem layout_does_not_matter (F F' : Function) (fuel : nat)
    (m m1 : gmap positive (gset (option positive))) :
  cfgEdges F ≡ₚ cfgEdges F' →
  getControlDependencies F PDT fuel m = Ok m1 →
  getControlDependencies F' PDT fuel m = Ok m1.
Proof.
  unfold getControlDependencies. intros Hperm.
  apply updateControlDependencies_Permutation.
  rewrite !getNonPDomEdges_filter. by rewrite Hperm.
Qed.

Lemma updateControlDependencies_fatal_edge fuel S e :
  e ∈ S → (∀ m0, processEdge PDT fuel m0 e = Fatal NullDereference) →
  ∀ m m', updateControlDependencies PDT fuel S m ≠ Ok m'.
Proof.
  intros He Hfatal. induction S as [|e' S IH]; intros m m' Hrun;
    [by apply elem_of_nil in He|].
  simpl in Hrun. apply elem_of_cons in He as [<-|He].
  - by rewrite Hfatal in Hrun.
  - destruct (processEdge PDT fuel m e') as [m1|]; [|done].
    by eapply IH.
Qed.

Lemma updateControlDependencies_edge_Ok fuel S e :
  e ∈ S →
  ∀ m m', updateControlDependencies PDT fuel S m = Ok m' →
          ∃ m0 m1, processEdge PDT fuel m0 e = Ok m1 ∧ grows m1 m'.
Proof.
  intros He. induction S as [|e' S IH]; intros m m' Hrun;
    [by apply elem_of_nil in He|].
  simpl in Hrun.
  destruct (processEdge PDT fuel m e') as [m1|] eqn:Hstep; [|done].
  simpl in Hrun. apply elem_of_cons in He as [->|He].
  - exists m, m1. split; [done|].
    by apply updateControlDependencies_absorbed in Hrun as [Hg _].
  - by eapply IH.
Qed.

(** X5: an edge that has a nearest common ancestor but whose tail has
    no node in the tree, or whose head has none while the tail's node
    has a parent, dereferences a null node: the edge is fatal from every
    map, and a builder run over a function that selects it never
    finishes. *)
Theorem block_outside_tree_is_fatal (fuel : nat) (A B L : BasicBlock) :
  findNearestCommonDominator PDT A B = Some L →
  getNode PDT A = None
  ∨ (∃ nA, getNode PDT A = Some nA ∧ is_Some (getIDom PDT nA)
           ∧ getNode PDT B = None) →
  (∀ m, processEdge PDT fuel m {| tail := A; head := B |}
        = Fatal NullDereference)
  ∧ ∀ (F : Function) m m',
      {| tail := A; head := B |} ∈ getNonPDomEdges F PDT →
      getControlDependencies F PDT fuel m ≠ Ok m'.
Proof.
  intros HL Hout.
  assert (∀ m, processEdge PDT fuel m {| tail := A; head := B |}
               = Fatal NullDereference) as Hfatal.
  { intros m. unfold processEdge. simpl. rewrite HL.
    destruct Hout as [->|(nA & -> & [p ->] & ->)]; [done|].
    by destruct fuel. }
  split; [done|]. intros F m m' Hsel.
  by eapply updateControlDependencies_fatal_edge.
Qed.

(** X6: with the post-dominator tree of [F], after a run that finishes
    the head of every selected edge that has a nearest common ancestor
    is a member of the dependent-set of the edge's tail. *)
Theorem selected_head_depends_on_tail (F : Function) (fuel : nat)
    (m m' : gmap positive (gset (option positive))) (A B : BasicBlock) :
  pdtOf F PDT →
  (A, B) ∈ cfgEdges F → properlyDominates PDT B A = false →
  is_Some (findNearestCommonDominator PDT A B) →
  getControlDependencies F PDT fuel m = Ok m' →
  ∃ s, m' !! A = Some s ∧ Some B ∈ s.
Proof.
  intros [Hblock Hidom Hroot] Hin Hsel [L HL] Hrun.
  assert ({| tail := A; head := B |} ∈ getNonPDomEdges F PDT) as He.
  { rewrite getNonPDomEdges_filter, list_elem_of_fmap. exists (A, B).
    split; [done|]. by apply list_elem_of_filter. }
  destruct (updateControlDependencies_edge_Ok _ _ _ He _ _ Hrun)
    as (m0 & m1 & Hstep & Hg).
  destruct (processEdge_Ok_path PDT _ _ _ _ _ _ HL Hstep)
    as (nA & l & HnA & Hp & _ & ->).
  destruct (Hg A (default ∅ (m0 !! A) ∪ list_to_set (getBlock PDT <$> l)))
    as (s & Hs & Hsub); [by rewrite lookup_insert_eq|].
  exists s. split; [done|]. apply Hsub, elem_of_union_r.
  apply getNonPDomEdges_elem in He as (succs & HA & HB & _). simpl in *.
  inversion Hp as [Hstop|n l0 Hne Hp0 Hcur]; subst l.
  - exfalso. destruct (getNode PDT B) as [nB|] eqn:HnB.
    + rewrite (Hidom _ _ _ _ HnA HnB) in Hsel; done.
    + rewrite (Hroot _ _ _ HA HnA) in HB by done. by apply elem_of_nil in HB.
  - simpl. rewrite (Hblock B n) by done.
    by apply elem_of_union_l, elem_of_singleton.
Qed.

(** X7: a run finishes only if, for every selected edge that has a
    nearest common ancestor, the tail has a node in the tree and the
    chain of immediate post-dominators from the head's node reaches the
    parent of the tail's node (the root, when there is no parent) within
    the steps allowed. *)
Theorem finished_run_walks_reach_parent (F : Function) (fuel : nat)
    (m m' : gmap positive (gset (option positive))) (A B L : BasicBlock) :
  getControlDependencies F PDT fuel m = Ok m' →
  {| tail := A; head := B |} ∈ getNonPDomEdges F PDT →
  findNearestCommonDominator PDT A B = Some L →
  ∃ nA l, getNode PDT A = Some nA
          ∧ idomPath PDT (getIDom PDT nA) (getNode PDT B) l
          ∧ length l ≤ fuel.
Proof.
  intros Hrun He HL.
  destruct (updateControlDependencies_edge_Ok _ _ _ He _ _ Hrun)
    as (m0 & m1 & Hstep & _).
  destruct (processEdge_Ok_path PDT _ _ _ _ _ _ HL Hstep)
    as (nA & l & HnA & Hp & Hlen & _).
  by exists nA, l.
Qed.

End ControlDependenceMore.

(** * Further properties of the data dependence tracker *)

Section DataDependenceMore.
Import DataDependence.

Context {Location NonLocalDepResult : Type}.
Variable IR : HostIR.
Variable MDA : MemoryDependenceAnalysis Location NonLocalDepResult.
Variable AA : AliasAnalysis Location.

Implicit Types (inst : positive) (st : State NonLocalDepResult).
Implicit Types (F : list positive).

Lemma skipped_iff inst :
  negb (mayReadFromMemory IR inst) && negb (mayWriteToMemory IR inst) = false
  ↔ accessesMemory IR inst.
Proof.
  unfold accessesMemory.
  destruct (mayReadFromMemory IR inst), (mayWriteToMemory IR inst); simpl;
    intuition congruence.
Qed.

(** What a call that ends normally does to the state does not depend on
    the state. *)
Lemma processDepResult_transfer inst st st' :
  processDepResult IR MDA AA inst st = Done st' →
  (isNonLocal (getDependency MDA inst) = false
   ∧ ∃ d, getDepInfo (getDependency MDA inst) = Ok d
          ∧ ∀ st0, processDepResult IR MDA AA inst st0
                   = Done (storeLocal inst d st0))
  ∨ (isNonLocal (getDependency MDA inst) = true
     ∧ ∀ st0, processDepResult IR MDA AA inst st0
              = Done (storeNonLocal inst
                        (queryEntries IR MDA AA inst (queryFlag IR inst))
                        st0)).
Proof.
  intros Hdone. destruct (isNonLocal (getDependency MDA inst)) eqn:Hn.
  - right. split; [done|]. by eapply processDepResult_nonLocal_Done.
  - left. split; [done|]. rewrite processDepResult_local in Hdone by done.
    destruct (getDepInfo (getDependency MDA inst)) as [d|] eqn:Hd; [|done].
    exists d. split; [done|]. intros st0.
    by rewrite processDepResult_local, Hd.
Qed.

Lemma processDepResult_errs inst st :
  match processDepResult IR MDA AA inst st with
  | Done st' => errs st' = errs st
  | Aborted _ st' => errs st' = errs st ∨ ∃ w, errs st' = errs st ++ [w]
  end.
Proof.
  unfold processDepResult.
  destruct (isNonLocal (getDependency MDA inst)); simpl;
    destruct (getDepInfo (getDependency MDA inst)) as [d|]; try by left.
  - destruct (decide (Type_ d = NonLocal)); [|by left].
    destruct (instKind IR inst); try destruct (isUnordered IR inst);
      simpl; (done || (by left) || (right; by eexists)).
  - destruct (valid d); [done|by left].
Qed.

(** X8: the names of the dependence kinds are pairwise distinct, so a
    printed kind identifies the kind. *)
Theorem depTypeToString_inj (d1 d2 : DepType) :
  depTypeToString d1 = depTypeToString d2 → d1 = d2.
Proof. destruct d1, d2; simpl; intros Heq; done || discriminate Heq. Qed.

(** X9: processing an instruction ends normally exactly in two cases:
    the oracle result is not non-local and one of the four other
    predicates holds; or the result is non-local, none of the four
    others holds, and the instruction is a va_arg or an unordered load
    or store.  Every other combination ends in a fatal signal. *)
Theorem processDepResult_ends_normally_iff inst st :
  (∃ st', processDepResult IR MDA AA inst st = Done st')
  ↔ (isNonLocal (getDependency MDA inst) = false
     ∧ (isClobber (getDependency MDA inst) = true
        ∨ isDef (getDependency MDA inst) = true
        ∨ isNonFuncLocal (getDependency MDA inst) = true
        ∨ isUnknown (getDependency MDA inst) = true))
    ∨ (isNonLocal (getDependency MDA inst) = true
       ∧ isClobber (getDependency MDA inst) = false
       ∧ isDef (getDependency MDA inst) = false
       ∧ isNonFuncLocal (getDependency MDA inst) = false
       ∧ isUnknown (getDependency MDA inst) = false
       ∧ (instKind IR inst = VAArgInst
          ∨ ((instKind IR inst = LoadInst ∨ instKind IR inst = StoreInst)
             ∧ isUnordered IR inst = true))).
Proof.
  unfold processDepResult, getDepInfo, valid.
  destruct (getDependency MDA inst) as [[] [] [] [] [] i]; simpl;
    destruct (instKind IR inst), (isUnordered IR inst); simpl;
    (split; [intros [st' Hst']; try discriminate Hst'; naive_solver
            |intros H; try (by eexists); exfalso; naive_solver]).
Qed.

(** X10: a memory instruction that is neither a load, a store nor a
    va_arg, with a non-local oracle result, ends in the fatal signal
    for an unknown memory instruction; nothing is stored and nothing is
    written, and the run over the function ends there. *)
Theorem unknown_memory_instruction_is_fatal inst st :
  instKind IR inst = OtherInst → nonLocalResult MDA inst →
  processDepResult IR MDA AA inst st
  = Aborted (Unreachable "Unknown memory instruction!") st
  ∧ ∀ F, accessesMemory IR inst →
         getDataDependencies IR MDA AA (inst :: F) st
         = Aborted (Unreachable "Unknown memory instruction!") st.
Proof.
  intros Hk Hres.
  assert (processDepResult IR MDA AA inst st
          = Aborted (Unreachable "Unknown memory instruction!") st) as Hstep.
  { rewrite processDepResult_nonLocal by done. by rewrite Hk. }
  split; [done|]. intros F Hacc. simpl.
  apply skipped_iff in Hacc as ->. by rewrite Hstep.
Qed.

(** X11: a run over a function that is stopped by a fatal signal has
    processed the instructions before the failing one normally, and its
    maps are those reached by that prefix: the failing instruction adds
    nothing. *)
Theorem aborted_run_keeps_prefix_results F st s st' :
  getDataDependencies IR MDA AA F st = Aborted s st' →
  ∃ F1 inst F2 st1,
    F = F1 ++ inst :: F2
    ∧ getDataDependencies IR MDA AA F1 st = Done st1
    ∧ accessesMemory IR inst
    ∧ processDepResult IR MDA AA inst st1 = Aborted s st'
    ∧ LocalDeps_ st' = LocalDeps_ st1
    ∧ NonLocalDeps_ st' = NonLocalDeps_ st1.
Proof.
  revert st. induction F as [|i F IH]; intros st Hrun; [done|].
  simpl in Hrun.
  destruct (negb (mayReadFromMemory IR i) && negb (mayWriteToMemory IR i))
    eqn:Hskip.
  - destruct (IH _ Hrun) as (F1 & inst & F2 & st1 & -> & H1 & Hrest).
    exists (i :: F1), inst, F2, st1. split; [done|].
    split; [|done]. simpl. by rewrite Hskip.
  - destruct (processDepResult IR MDA AA i st) as [st1|s1 st1] eqn:Hstep.
    + destruct (IH _ Hrun) as (F1 & inst & F2 & st2 & -> & H1 & Hrest).
      exists (i :: F1), inst, F2, st2. split; [done|].
      split; [|done]. simpl. by rewrite Hskip, Hstep.
    + injection Hrun as <- <-. exists [], i, F, st.
      split; [done|]. split; [done|]. split; [by apply skipped_iff|].
      split; [done|].
      destruct (processDepResult_maps IR MDA AA i st)
        as [(HL & HN & _)|[(_ & d & _ & Heq)|(_ & Heq)]];
        rewrite Hstep in *; done.
Qed.

(** X12: instructions that neither read nor write memory are passed
    over: the run over a function is the run over its memory accesses,
    in the same order. *)
Theorem only_memory_accesses_count F st :
  getDataDependencies IR MDA AA F st
  = getDataDependencies IR MDA AA (filter (accessesMemory IR) F) st.
Proof.
  revert st. induction F as [|i F IH]; intros st; [done|].
  destruct (decide (accessesMemory IR i)) as [Hacc|Hacc].
  - rewrite filter_cons_True by done. simpl.
    apply skipped_iff in Hacc as ->.
    destruct (processDepResult IR MDA AA i st); [apply IH|done].
  - rewrite filter_cons_False by done. simpl.
    destruct (negb (mayReadFromMemory IR i) && negb (mayWriteToMemory IR i))
      eqn:Hskip; [apply IH|]. by apply skipped_iff in Hskip.
Qed.

(** X13: running over two instruction streams one after the other, on
    the same maps, is the run over their concatenation; a fatal signal
    in the first stream is the outcome of the whole. *)
Theorem runs_compose F1 F2 st :
  getDataDependencies IR MDA AA (F1 ++ F2) st
  = match getDataDependencies IR MDA AA F1 st with
    | Done st1 => getDataDependencies IR MDA AA F2 st1
    | Aborted s st1 => Aborted s st1
    end.
Proof.
  revert st. induction F1 as [|i F1 IH]; intros st; [done|]. simpl.
  destruct (negb (mayReadFromMemory IR i) && negb (mayWriteToMemory IR i));
    [apply IH|].
  destruct (processDepResult IR MDA AA i st); [apply IH|done].
Qed.

Lemma getDataDependencies_Local_other F :
  ∀ st st' i,
    getDataDependencies IR MDA AA F st = Done st' →
    ¬ (i ∈ F ∧ accessesMemory IR i
       ∧ isNonLocal (getDependency MDA i) = false) →
    LocalDeps_ st' !! i = LocalDeps_ st !! i.
Proof.
  induction F as [|j F IH]; intros st st' i Hrun Hnot; simpl in Hrun.
  - by injection Hrun as <-.
  - assert (¬ (i ∈ F ∧ accessesMemory IR i
               ∧ isNonLocal (getDependency MDA i) = false)) as Hnot'.
    { intros (Hin & Hrest). apply Hnot. split; [by right|done]. }
    destruct (negb (mayReadFromMemory IR j) && negb (mayWriteToMemory IR j))
      eqn:Hskip; [by eapply IH|].
    destruct (processDepResult IR MDA AA j st) as [st1|] eqn:Hstep; [|done].
    rewrite (IH _ _ _ Hrun Hnot').
    destruct (processDepResult_transfer _ _ _ Hstep)
      as [(Hn & d & _ & Heq)|(_ & Heq)];
      rewrite Heq in Hstep; injection Hstep as <-; simpl; [|done].
    apply lookup_insert_ne. intros ->. apply Hnot.
    split; [by left|]. split; [by apply skipped_iff|done].
Qed.

Lemma getDataDependencies_Local_lookup F :
  ∀ st st' inst,
    getDataDependencies IR MDA AA F st = Done st' →
    inst ∈ F → accessesMemory IR inst →
    isNonLocal (getDependency MDA inst) = false →
    ∃ d, getDepInfo (getDependency MDA inst) = Ok d
         ∧ LocalDeps_ st' !! inst = Some d.
Proof.
  induction F as [|j F IH]; intros st st' inst Hrun Hin Hacc Hn;
    [by apply elem_of_nil in Hin|].
  simpl in Hrun.
  destruct (decide (inst ∈ F)) as [HinF|HninF].
  - destruct (negb (mayReadFromMemory IR j) && negb (mayWriteToMemory IR j));
      [by eapply IH|].
    destruct (processDepResult IR MDA AA j st) as [st1|]; [|done].
    by eapply IH.
  - apply elem_of_cons in Hin as [->|Hin]; [|done].
    apply skipped_iff in Hacc as Hskip. rewrite Hskip in Hrun.
    destruct (processDepResult IR MDA AA j st) as [st1|] eqn:Hstep; [|done].
    rewrite (getDataDependencies_Local_other F st1 st' j Hrun)
      by (by intros [? _]).
    destruct (processDepResult_transfer _ _ _ Hstep)
      as [(_ & d & Hd & Heq)|(Hn' & _)]; [|congruence].
    rewrite Heq in Hstep. injection Hstep as <-. exists d.
    split; [done|]. simpl. by rewrite lookup_insert_eq.
Qed.

Lemma getDataDependencies_again F :
  ∀ st st',
    getDataDependencies IR MDA AA F st = Done st' →
    ∀ stA,
      (∀ inst, inst ∈ F → accessesMemory IR inst →
               isNonLocal (getDependency MDA inst) = false →
               ∃ d, getDepInfo (getDependency MDA inst) = Ok d
                    ∧ LocalDeps_ stA !! inst = Some d) →
      ∃ stB, getDataDependencies IR MDA AA F stA = Done stB
             ∧ LocalDeps_ stB = LocalDeps_ stA
             ∧ errs stB = errs stA.
Proof.
  induction F as [|j F IH]; intros st st' Hrun stA HA; simpl in *.
  - by exists stA.
  - assert (∀ stA1 : State NonLocalDepResult,
              LocalDeps_ stA1 = LocalDeps_ stA →
              ∀ inst, inst ∈ F → accessesMemory IR inst →
                isNonLocal (getDependency MDA inst) = false →
                ∃ d, getDepInfo (getDependency MDA inst) = Ok d
                     ∧ LocalDeps_ stA1 !! inst = Some d) as HA'.
    { intros stA1 -> inst Hin. apply HA. by right. }
    destruct (negb (mayReadFromMemory IR j) && negb (mayWriteToMemory IR j))
      eqn:Hskip; [by eapply IH; [|apply HA']|].
    destruct (processDepResult IR MDA AA j st) as [st1|] eqn:Hstep; [|done].
    destruct (processDepResult_transfer _ _ _ Hstep)
      as [(Hn & d & Hd & Heq)|(_ & Heq)]; rewrite (Heq stA).
    + destruct (HA j) as (d' & Hd' & Hl);
        [by left|by apply skipped_iff|done|].
      assert (d' = d) as -> by congruence.
      destruct (IH _ _ Hrun (storeLocal j d stA)) as (stB & HB & HL & HE).
      { apply HA'. simpl. by apply insert_id. }
      exists stB. split; [done|]. rewrite HL, HE. simpl.
      split; [by apply insert_id|done].
    + destruct (IH _ _ Hrun
                  (storeNonLocal j
                     (queryEntries IR MDA AA j (queryFlag IR j)) stA))
        as (stB & HB & HL & HE); [by apply HA'|].
      exists stB. by rewrite HL, HE.
Qed.

(** X14: whatever way a run ends, a key of the Local map is a key it
    had before or a memory access of the function with a local oracle
    result, and a key of the Non-Local map is a key it had before or a
    memory access of the function with a non-local result: no other
    instruction is ever entered. *)
Theorem keys_come_from_processed_accesses F st i :
  (i ∈ dom (LocalDeps_ (stateOf (getDataDependencies IR MDA AA F st))) →
   i ∈ dom (LocalDeps_ st)
   ∨ (i ∈ F ∧ accessesMemory IR i
      ∧ isNonLocal (getDependency MDA i) = false))
  ∧ (i ∈ dom (NonLocalDeps_
                (stateOf (getDataDependencies IR MDA AA F st))) →
     i ∈ dom (NonLocalDeps_ st)
     ∨ (i ∈ F ∧ accessesMemory IR i
        ∧ isNonLocal (getDependency MDA i) = true)).
Proof.
  revert st. induction F as [|j F IH]; intros st; simpl; [by split; left|].
  assert (∀ st1 : State NonLocalDepResult,
    (i ∈ dom (LocalDeps_ st1) →
     i ∈ dom (LocalDeps_ st) ∨ (i = j ∧ accessesMemory IR j
        ∧ isNonLocal (getDependency MDA j) = false)) →
    (i ∈ dom (NonLocalDeps_ st1) →
     i ∈ dom (NonLocalDeps_ st) ∨ (i = j ∧ accessesMemory IR j
        ∧ isNonLocal (getDependency MDA j) = true)) →
    (i ∈ dom (LocalDeps_ (stateOf (getDataDependencies IR MDA AA F st1))) →
     i ∈ dom (LocalDeps_ st)
     ∨ (i ∈ j :: F ∧ accessesMemory IR i
        ∧ isNonLocal (getDependency MDA i) = false))
    ∧ (i ∈ dom (NonLocalDeps_
                  (stateOf (getDataDependencies IR MDA AA F st1))) →
       i ∈ dom (NonLocalDeps_ st)
       ∨ (i ∈ j :: F ∧ accessesMemory IR i
          ∧ isNonLocal (getDependency MDA i) = true))) as Hlift.
  { intros st1 HL HN. destruct (IH st1) as [IHL IHN]. split; intros Hi.
    - destruct (IHL Hi) as [H1|(Hin & Hrest)].
      + destruct (HL H1) as [?|(-> & Hrest)]; [by left|right].
        split; [by left|done].
      + right. split; [by right|done].
    - destruct (IHN Hi) as [H1|(Hin & Hrest)].
      + destruct (HN H1) as [?|(-> & Hrest)]; [by left|right].
        split; [by left|done].
      + right. split; [by right|done]. }
  destruct (negb (mayReadFromMemory IR j) && negb (mayWriteToMemory IR j))
    eqn:Hskip; [apply Hlift; by left|].
  apply skipped_iff in Hskip.
  destruct (processDepResult_maps IR MDA AA j st)
    as [(HL & HN & _)|[(Hn & d & _ & Heq)|(Hn & Heq)]].
  - destruct (processDepResult IR MDA AA j st) as [st1|s st1]; simpl in *.
    + apply Hlift; rewrite ?HL, ?HN; by left.
    + rewrite HL, HN. split; by left.
  - rewrite Heq. apply Hlift; simpl; [|by left].
    rewrite dom_insert_L.
    intros [->%elem_of_singleton|Hi]%elem_of_union; [by right|by left].
  - rewrite Heq. apply Hlift; simpl; [by left|].
    rewrite pushAll_dom.
    destruct (queryEntries IR MDA AA j (queryFlag IR j)); [by left|].
    intros [->%elem_of_singleton|Hi]%elem_of_union; [by right|by left].
Qed.

(** X16: after a run that ends normally, the Non-Local record of a
    memory access with a non-local oracle result is its record from
    before followed by the oracle's entries once for each occurrence of
    the instruction in the stream. *)
Theorem nonlocal_record_after_run F st st' inst :
  getDataDependencies IR MDA AA F st = Done st' →
  accessesMemory IR inst →
  isNonLocal (getDependency MDA inst) = true →
  default [] (NonLocalDeps_ st' !! inst)
  = default [] (NonLocalDeps_ st !! inst)
    ++ mjoin (replicate (length (filter (λ i, i = inst) F))
                (queryEntries IR MDA AA inst (queryFlag IR inst))).
Proof.
  revert st st'.
  induction F as [|j F IH]; intros st st' Hrun Hacc Hn; simpl in Hrun.
  - injection Hrun as <-. simpl. by rewrite app_nil_r.
  - destruct (decide (j = inst)) as [->|Hne].
    + rewrite filter_cons_True by done. simpl.
      apply skipped_iff in Hacc as Hskip. rewrite Hskip in Hrun.
      destruct (processDepResult IR MDA AA inst st) as [st1|] eqn:Hstep;
        [|done].
      rewrite (IH _ _ Hrun Hacc Hn).
      destruct (processDepResult_transfer _ _ _ Hstep)
        as [(Hn' & _)|(_ & Heq)]; [congruence|].
      rewrite Heq in Hstep. injection Hstep as <-. simpl.
      by rewrite pushAll_record, <- app_assoc.
    + rewrite filter_cons_False by done.
      destruct (negb (mayReadFromMemory IR j)
                && negb (mayWriteToMemory IR j)); [by eapply IH|].
      destruct (processDepResult IR MDA AA j st) as [st1|] eqn:Hstep;
        [|done].
      rewrite (IH _ _ Hrun Hacc Hn). f_equal. f_equal.
      destruct (processDepResult_transfer _ _ _ Hstep)
        as [(_ & d & _ & Heq)|(_ & Heq)];
        rewrite Heq in Hstep; injection Hstep as <-; simpl; [done|].
      by apply pushAll_other.
Qed.

(** X15: after a run that ends normally, looking up a memory access of
    the function with a local oracle result returns the classification
    of that result, whatever the Local map held for it before; the
    records of all other instructions are the ones from before. *)
Theorem local_lookup_after_run F st st' :
  getDataDependencies IR MDA AA F st = Done st' →
  (∀ inst, inst ∈ F → accessesMemory IR inst →
           isNonLocal (getDependency MDA inst) = false →
           ∃ d, getDepInfo (getDependency MDA inst) = Ok d
                ∧ LocalDeps_ st' !! inst = Some d)
  ∧ (∀ i, ¬ (i ∈ F ∧ accessesMemory IR i
             ∧ isNonLocal (getDependency MDA i) = false) →
          LocalDeps_ st' !! i = LocalDeps_ st !! i).
Proof.
  intros Hrun. split.
  - intros inst. by apply (getDataDependencies_Local_lookup F st st' inst).
  - intros i. by apply (getDataDependencies_Local_other F st st' i).
Qed.

(** X17: when a run over a function has ended normally, a second run
    over the same function from the maps reached ends normally too and
    leaves the Local map and the warnings exactly as they were. *)
Theorem second_run_keeps_local_map F st st1 :
  getDataDependencies IR MDA AA F st = Done st1 →
  ∃ st2, getDataDependencies IR MDA AA F st1 = Done st2
         ∧ LocalDeps_ st2 = LocalDeps_ st1
         ∧ errs st2 = errs st1.
Proof.
  intros Hrun. apply (getDataDependencies_again F st st1 Hrun st1).
  intros inst. by apply (getDataDependencies_Local_lookup F st st1 inst).
Qed.

(** X18: a run that ends normally writes nothing to the error stream; a
    run stopped by a fatal signal has written at most one line. *)
Theorem warnings_only_on_fatal_path F st :
  match getDataDependencies IR MDA AA F st with
  | Done st' => errs st' = errs st
  | Aborted _ st' => errs st' = errs st ∨ ∃ w, errs st' = errs st ++ [w]
  end.
Proof.
  revert st. induction F as [|j F IH]; intros st; simpl; [done|].
  destruct (negb (mayReadFromMemory IR j) && negb (mayWriteToMemory IR j));
    [apply IH|].
  pose proof (processDepResult_errs j st) as Hstep.
  destruct (processDepResult IR MDA AA j st) as [st1|s st1]; [|done].
  specialize (IH st1). rewrite Hstep in IH. done.
Qed.

(** X27: the fatal signals processing an instruction can end in are
    five: the two [llvm_unreachable]s, the assertion on the kind in the
    non-local branch, and the two assertions on atomic or volatile
    accesses.  In particular the assertion [newInfo.valid()] of the
    local branch never fails, although a default-constructed [DepInfo]
    is not valid: [getDepInfo] never returns one. *)
Theorem fatal_signals_of_processDepResult inst st s st' :
  processDepResult IR MDA AA inst st = Aborted s st' →
  valid DepInfo_default = false
  ∧ s ∈ [ Unreachable "unknown dependence type";
          AssertionFailed "newInfo.Type_ == NonLocal";
          AssertionFailed "atomic/volatile loads not handled";
          AssertionFailed "atomic/volatile stores not handled";
          Unreachable "Unknown memory instruction!" ].
Proof.
  intros Hab. split; [done|]. revert Hab.
  unfold processDepResult, getDepInfo, valid.
  destruct (getDependency MDA inst) as [[] [] [] [] [] i]; simpl;
    try destruct (instKind IR inst); try destruct (isUnordered IR inst);
    simpl; intros [= <- _] || (intros Hab; discriminate Hab);
    rewrite !elem_of_cons; tauto.
Qed.

End DataDependenceMore.

(** * Properties of the pass *)

Section DependenceCheckFacts.
Import ControlDependence DataDependence DependenceCheck.

Context {Location NonLocalDepResult : Type}.
Variable IR : HostIR.
Variable AA : AliasAnalysis Location.

Implicit Types (M : list (FunctionUnit Location NonLocalDepResult)).
Implicit Types (P : Pass NonLocalDepResult).

(** X19: declarations are passed over: running the pass on a module is
    running it on the module's defined functions, in the same order. *)
Theorem declarations_are_skipped (fuel : nat) M P :
  runOnModule IR AA fuel M P
  = runOnModule IR AA fuel (filter (λ mi, isDeclaration mi = false) M) P.
Proof.
  revert P. induction M as [|mi M IH]; intros P; [done|].
  destruct (isDeclaration mi) eqn:Hd.
  - rewrite filter_cons_False by (by rewrite Hd). simpl. rewrite Hd. apply IH.
  - rewrite filter_cons_True by done. simpl. rewrite Hd.
    destruct (getDataDependencies IR (getMDA mi) AA (insts mi) (DataDep P));
      [|done].
    destruct (getControlDependencies (blocks mi) (getPDT mi) fuel
                (ControlDep P)); [|done].
    simpl. apply IH.
Qed.

(** X20: when every defined function of the module comes with its
    post-dominator tree, a pass that finishes keeps three invariants of
    its maps: Local records carry a local kind, no Local record is
    [Invalid], and every key of the control dependence map has a
    dependent block. *)
Theorem pass_keeps_map_invariants (fuel : nat) M P P' :
  (∀ mi, mi ∈ M → isDeclaration mi = false →
         pdtOf (blocks mi) (getPDT mi)) →
  localKindsOnly (DataDep P) → keysNonEmpty (ControlDep P) →
  runOnModule IR AA fuel M P = Ok P' →
  localKindsOnly (DataDep P') ∧ noInvalidStored (DataDep P')
  ∧ keysNonEmpty (ControlDep P').
Proof.
  assert (∀ st : State NonLocalDepResult,
            localKindsOnly st → noInvalidStored st) as Hkinds.
  { intros st Hst i d Hi Hinv. apply Hst in Hi. rewrite Hinv in Hi.
    destruct Hi as [|[|[|]]]; discriminate. }
  revert P. induction M as [|mi M IH]; intros P Htrees HL HC Hrun;
    simpl in Hrun.
  - injection Hrun as <-. split_and!; auto.
  - assert (∀ mj, mj ∈ M → isDeclaration mj = false →
                  pdtOf (blocks mj) (getPDT mj)) as Htrees'.
    { intros mj Hin. apply Htrees. by right. }
    destruct (isDeclaration mi) eqn:Hd; [by eapply IH|].
    pose proof (getDataDependencies_localKindsOnly IR (getMDA mi) AA
                  (insts mi) (DataDep P) HL) as HL1.
    destruct (getDataDependencies IR (getMDA mi) AA (insts mi) (DataDep P))
      as [st1|]; [|done].
    destruct (getControlDependencies (blocks mi) (getPDT mi) fuel
                (ControlDep P)) as [c1|] eqn:Hc; [|done].
    simpl in Hrun. eapply IH; [done| | |exact Hrun]; simpl; [done|].
    eapply (updateControlDependencies_keysNonEmpty (getPDT mi) (blocks mi));
      [apply Htrees; [by left|done]| |exact HC|exact Hc].
    done.
Qed.

End DependenceCheckFacts.

(** * Properties of the dot export *)

Section DotFacts.
Import ControlDependence.

Variable env : DotEnv.

Local Opaque lit.

Lemma findChar_notin c (s : list ascii) : c ∉ s → findChar c s = None.
Proof.
  induction s as [|x s IH]; intros Hc; [done|]. simpl.
  apply not_elem_of_cons in Hc as [Hne Hc].
  rewrite decide_False by done. by rewrite IH.
Qed.

Lemma findChar_app c (pre s : list ascii) :
  c ∉ pre → findChar c (pre ++ c :: s) = Some (length pre).
Proof.
  induction pre as [|x pre IH]; intros Hc; simpl.
  - by rewrite decide_True.
  - apply not_elem_of_cons in Hc as [Hne Hc].
    rewrite decide_False by done. by rewrite IH.
Qed.

Lemma escaped_no_newline (s : list ascii) : newline ∉ escaped s.
Proof.
  induction s as [|c s IH]; [apply not_elem_of_nil|].
  unfold escaped. simpl. destruct (decide (c = newline)) as [->|Hne]; simpl.
  - apply not_elem_of_cons. split; [done|].
    apply not_elem_of_cons. split; [done|exact IH].
  - apply not_elem_of_cons. split; [done|exact IH].
Qed.

Lemma escapeLoop_prefix (s : list ascii) :
  ∀ fuel pre, newline ∉ pre → lineBreaks s ≤ fuel →
    escapeLoop fuel (pre ++ s) = Ok (pre ++ escaped s).
Proof.
  induction s as [|c s IH]; intros fuel pre Hpre Hfuel.
  - rewrite !app_nil_r. destruct fuel; simpl; by rewrite findChar_notin.
  - destruct (decide (c = newline)) as [->|Hne].
    + unfold lineBreaks in Hfuel. rewrite filter_cons_True in Hfuel by done.
      destruct fuel as [|fuel]; simpl in Hfuel; [lia|]. simpl.
      rewrite findChar_app by done. unfold erase1, insertAt.
      rewrite take_app_length.
      replace (drop (S (length pre)) (pre ++ newline :: s)) with s
        by (clear; induction pre; [done|by simpl]).
      rewrite take_app_length, drop_app_length, app_assoc.
      rewrite (IH fuel (pre ++ [backslash; "l"%char])).
      * unfold escaped. simpl. by rewrite <- app_assoc.
      * intros [Hin|Hin]%elem_of_app; [done|].
        apply elem_of_cons in Hin as [Heq|Hin]; [done|].
        apply elem_of_cons in Hin as [Heq|Hin]; [done|].
        by apply elem_of_nil in Hin.
      * unfold lineBreaks. lia.
    + unfold lineBreaks in Hfuel. rewrite filter_cons_False in Hfuel by done.
      rewrite (cons_middle c pre s), app_assoc.
      rewrite (IH fuel (pre ++ [c])); [| |done].
      * unfold escaped. simpl. rewrite decide_False by done.
        by rewrite <- app_assoc.
      * intros [Hin|Hin]%elem_of_app; [done|].
        apply elem_of_cons in Hin as [Heq|Hin]; [done|].
        by apply elem_of_nil in Hin.
Qed.

Lemma escapeLoop_escaped fuel (s : list ascii) :
  lineBreaks s ≤ fuel → escapeLoop fuel s = Ok (escaped s).
Proof.
  intros Hfuel. apply (escapeLoop_prefix s fuel []); [|done].
  apply not_elem_of_nil.
Qed.

(** X21: the replacement loop of [insertDotNode] ends after one round
    per line break, and what it leaves is the text with every line
    break replaced, in place, by a backslash and an l: no line break is
    left, and the text is longer by the number of line breaks. *)
Theorem escape_loop_replaces_line_breaks (fuel : nat) (bbstr : list ascii) :
  lineBreaks bbstr ≤ fuel →
  escapeLoop fuel bbstr = Ok (escaped bbstr)
  ∧ (newline ∉ escaped bbstr)
  ∧ length (escaped bbstr) = length bbstr + lineBreaks bbstr.
Proof.
  intros Hfuel. split; [by apply escapeLoop_escaped|].
  split; [apply escaped_no_newline|].
  clear Hfuel. unfold escaped, lineBreaks.
  induction bbstr as [|c s IH]; [done|]. simpl.
  destruct (decide (c = newline)) as [->|Hne].
  - rewrite filter_cons_True by done. simpl. rewrite IH. lia.
  - rewrite filter_cons_False by done. simpl. by rewrite IH.
Qed.

Lemma Result_bind_Ok {A B} (f : A → Result B) (a : A) : Ok a ≫= f = f a.
Proof. done. Qed.

Lemma insertDotNode_item fuel (out : list ascii) b :
  lineBreaks (blockText env b) ≤ fuel →
  insertDotNode env fuel out (Some b) = Ok (out ++ itemText env (NodeDef b)).
Proof.
  intros Hfuel. unfold insertDotNode, itemText.
  rewrite escapeLoop_escaped by done.
  rewrite Result_bind_Ok. by rewrite <- !app_assoc.
Qed.

Lemma itemsOf_seen seen seen' pairs :
  seen = seen' → itemsOf seen pairs = itemsOf seen' pairs.
Proof. by intros ->. Qed.

Lemma omap_id_cons_Some (b : positive) (l : list (option positive)) :
  omap id (Some b :: l) = b :: omap id l.
Proof. done. Qed.

Lemma dotDeps_items fuel tl :
  ∀ (deps : list (option positive)) seen out,
    (∀ b, Some b ∈ deps → lineBreaks (blockText env b) ≤ fuel) →
    None ∉ seen →
    dotDeps env fuel tl deps seen out
    = if decide (None ∈ deps) then Fatal NullDereference
      else Ok (list_to_set deps ∪ seen,
               out ++ mjoin (itemText env
                               <$> itemsOf seen (pair tl <$> omap id deps))).
Proof.
  induction deps as [|[b|] deps IH]; intros seen out Hfuel Hseen.
  - simpl. by rewrite union_empty_l_L, app_nil_r.
  - assert (∀ b', Some b' ∈ deps → lineBreaks (blockText env b') ≤ fuel)
      as Hfuel' by (intros b' Hb'; apply Hfuel; by right).
    rewrite omap_id_cons_Some. cbn [dotDeps fmap list_fmap itemsOf].
    destruct (decide (Some b ∈ seen)) as [Hin|Hnin].
    + rewrite IH by done.
      destruct (decide (None ∈ deps)) as [Hn|Hn].
      * rewrite decide_True by (by right). done.
      * rewrite decide_False
          by (intros [?|?]%elem_of_cons; [done|by apply Hn]).
        assert ({[Some b]} ∪ seen = seen) as Hseen'
          by (apply subseteq_union_1_L; by apply singleton_subseteq_l).
        f_equal. f_equal.
        -- clear IH Hfuel Hfuel'. set_solver.
        -- unfold insertDotEdge, itemText. rewrite Hseen'.
           simpl. by rewrite <- !app_assoc.
    + rewrite insertDotNode_item by (apply Hfuel; by left).
      rewrite Result_bind_Ok.
      rewrite IH; [|done|].
      * destruct (decide (None ∈ deps)) as [Hn|Hn].
        -- rewrite decide_True by (by right). done.
        -- rewrite decide_False
             by (intros [?|?]%elem_of_cons; [done|by apply Hn]).
           f_equal. f_equal.
           ++ clear IH Hfuel Hfuel'. set_solver.
           ++ unfold insertDotEdge, itemText.
              simpl. by rewrite <- !app_assoc.
      * intros [Heq%elem_of_singleton|Hin]%elem_of_union; done.
  - cbn [dotDeps]. rewrite decide_False by done.
    rewrite (decide_True (P := None ∈ None :: deps)) by by left. done.
Qed.

Lemma itemsOf_app seen pairs1 pairs2 :
  itemsOf seen (pairs1 ++ pairs2)
  = itemsOf seen pairs1
    ++ itemsOf (list_to_set ((λ p, Some p.2) <$> pairs1) ∪ seen) pairs2.
Proof.
  revert seen. induction pairs1 as [|[a b] pairs1 IH]; intros seen; simpl.
  - by rewrite union_empty_l_L.
  - rewrite IH, <- !app_assoc. simpl. do 3 f_equal.
    apply itemsOf_seen. clear IH. set_solver.
Qed.

Lemma fmap_Some_omap_id (l : list (option positive)) :
  None ∉ l → Some <$> omap id l = l.
Proof.
  induction l as [|[b|] l IH]; intros Hn; [done| |].
  - rewrite omap_id_cons_Some. simpl. f_equal. apply IH.
    intros Hin. apply Hn. by right.
  - exfalso. apply Hn. by left.
Qed.

Lemma dotEntries_items fuel :
  ∀ (entries : list (positive * gset (option positive))) seen out,
    (∀ e b, e ∈ entries → Some b ∈ setOrder e.2 →
            lineBreaks (blockText env b) ≤ fuel) →
    None ∉ seen →
    dotEntries env fuel entries seen out
    = if decide (Exists (λ e, None ∈ setOrder e.2) entries)
      then Fatal NullDereference
      else Ok (list_to_set (flat_map (λ e, setOrder e.2) entries) ∪ seen,
               out ++ mjoin (itemText env
                               <$> itemsOf seen (depPairs entries))).
Proof.
  induction entries as [|[tl depSet] entries IH]; intros seen out Hfuel Hseen.
  - simpl. by rewrite union_empty_l_L, app_nil_r.
  - cbn [dotEntries]. rewrite dotDeps_items; [| |done].
    2:{ intros b Hb. by apply (Hfuel (tl, depSet)); [left|]. }
    cbn [snd] in *.
    destruct (decide (None ∈ setOrder depSet)) as [Hn|Hn].
    + rewrite (decide_True (P := Exists _ (_ :: _))) by (by left). done.
    + rewrite Result_bind_Ok. cbn [fst snd]. rewrite IH.
      2:{ intros e b He. apply Hfuel. by right. }
      2:{ intros [Hin%elem_of_list_to_set|Hin]%elem_of_union; done. }
      destruct (decide (Exists (λ e, None ∈ setOrder e.2) entries))
        as [Hex|Hex].
      * by rewrite (decide_True (P := Exists _ (_ :: _))) by (by right).
      * rewrite (decide_False (P := Exists _ (_ :: _)))
          by (intros [?|?]%Exists_cons; [done|by apply Hex]).
        f_equal. f_equal.
        -- cbn [flat_map snd]. rewrite list_to_set_app_L.
           clear IH Hfuel. set_solver.
        -- rewrite <- app_assoc. f_equal.
           change (depPairs ((tl, depSet) :: entries))
             with ((pair tl <$> omap id (setOrder depSet))
                   ++ depPairs entries).
           rewrite itemsOf_app, fmap_app, join_app. do 3 f_equal.
           apply itemsOf_seen. f_equal.
           rewrite <- list_fmap_compose.
           by rewrite <- (fmap_Some_omap_id (setOrder depSet)) at 1.
Qed.

Lemma itemsOf_EdgeDef seen pairs a b :
  EdgeDef a b ∈ itemsOf seen pairs ↔ (a, b) ∈ pairs.
Proof.
  revert seen. induction pairs as [|[a' b'] pairs IH]; intros seen; simpl.
  - split; by intros ?%elem_of_nil.
  - rewrite elem_of_app, !elem_of_cons, IH. split.
    + intros [Hin|[[= -> ->]|Hin]]; [|by left|by right].
      destruct (decide (Some b' ∈ seen)); [by apply elem_of_nil in Hin|].
      apply elem_of_cons in Hin as [?|Hin]; [done|].
      by apply elem_of_nil in Hin.
    + intros [[= -> ->]|Hin]; right; [by left|by right].
Qed.

Lemma itemsOf_NodeDef seen pairs b :
  NodeDef b ∈ itemsOf seen pairs ↔ (Some b ∉ seen) ∧ ∃ a, (a, b) ∈ pairs.
Proof.
  revert seen. induction pairs as [|[a' b'] pairs IH]; intros seen; simpl.
  - split; [by intros ?%elem_of_nil|]. by intros (_ & a & ?%elem_of_nil).
  - rewrite elem_of_app, elem_of_cons, IH. split.
    + intros [Hin|[?|(Hnin & a & Hin)]]; [|done|].
      * destruct (decide (Some b' ∈ seen)) as [|Hnin];
          [by apply elem_of_nil in Hin|].
        apply elem_of_cons in Hin as [[= ->]|Hin];
          [|by apply elem_of_nil in Hin].
        split; [done|]. exists a'. by left.
      * split; [|exists a; by right].
        intros Hb. apply Hnin. by apply elem_of_union_r.
    + intros (Hnin & a & [[= -> ->]|Hin]%elem_of_cons).
      * left. rewrite decide_False by done. by left.
      * destruct (decide (b = b')) as [->|Hne].
        -- left. rewrite decide_False by done. by left.
        -- right; right. split; [|by exists a].
           intros [Heq%elem_of_singleton|?]%elem_of_union; [|done].
           by injection Heq.
Qed.

Lemma itemsOf_NoDup seen pairs : NoDup pairs → NoDup (itemsOf seen pairs).
Proof.
  revert seen. induction pairs as [|[a b] pairs IH]; intros seen Hnd; simpl;
    [constructor|].
  apply NoDup_cons in Hnd as [Hnin Hnd].
  assert (NoDup (EdgeDef a b :: itemsOf ({[Some b]} ∪ seen) pairs)) as Hrest.
  { apply NoDup_cons. split; [by rewrite itemsOf_EdgeDef|by apply IH]. }
  destruct (decide (Some b ∈ seen)); [done|]. simpl.
  apply NoDup_cons. split; [|done].
  intros [?|Hin]%elem_of_cons; [done|].
  apply itemsOf_NodeDef in Hin as [Hb _]. apply Hb.
  by apply elem_of_union_l, elem_of_singleton.
Qed.

Lemma itemsOf_node_first pairs :
  ∀ seen i a b,
    itemsOf seen pairs !! i = Some (EdgeDef a b) →
    Some b ∈ seen
    ∨ ∃ k, k < i ∧ itemsOf seen pairs !! k = Some (NodeDef b).
Proof.
  induction pairs as [|[a' b'] pairs IH]; intros seen i a b Hi; [done|].
  simpl in Hi |- *.
  assert (∀ i', itemsOf ({[Some b']} ∪ seen) pairs !! i'
                = Some (EdgeDef a b) →
                b = b' ∨ Some b ∈ seen
                ∨ ∃ k, k < i'
                       ∧ itemsOf ({[Some b']} ∪ seen) pairs !! k
                         = Some (NodeDef b)) as IH'.
  { intros i' Hi'. destruct (IH _ _ _ _ Hi') as [Hin|Hk]; [|by right; right].
    apply elem_of_union in Hin as [Heq%elem_of_singleton|Hin];
      [left; by injection Heq|by right; left]. }
  destruct (decide (Some b' ∈ seen)) as [Hin|Hnin]; simpl in *.
  - destruct i as [|i]; simpl in Hi.
    + injection Hi as -> ->. by left.
    + destruct (IH' _ Hi) as [->|[?|(k & Hk & Hl)]]; [by left|by left|].
      right. exists (S k). split; [lia|done].
  - destruct i as [|[|i]]; simpl in Hi; [done| |].
    + injection Hi as -> ->. right. exists 0. split; [lia|done].
    + destruct (IH' _ Hi) as [->|[?|(k & Hk & Hl)]].
      * right. exists 0. split; [lia|done].
      * by left.
      * right. exists (S (S k)). split; [lia|done].
Qed.

Lemma mapOrder_elem (m : gmap positive (gset (option positive))) e :
  e ∈ mapOrder m ↔ m !! e.1 = Some e.2.
Proof.
  unfold mapOrder. rewrite merge_sort_Permutation. destruct e as [a s'].
  apply elem_of_map_to_list.
Qed.

Lemma setOrder_elem (s' : gset (option positive)) j :
  j ∈ setOrder s' ↔ j ∈ s'.
Proof.
  unfold setOrder. rewrite merge_sort_Permutation. apply elem_of_elements.
Qed.

Lemma depPairs_elem (m : gmap positive (gset (option positive))) a b :
  (a, b) ∈ depPairs (mapOrder m) ↔ ∃ s', m !! a = Some s' ∧ Some b ∈ s'.
Proof.
  unfold depPairs. rewrite list_elem_of_In, in_flat_map. split.
  - intros ([a' s'] & He%list_elem_of_In & Hin%list_elem_of_In).
    apply mapOrder_elem in He. simpl in *.
    apply list_elem_of_fmap in Hin as (b' & [= -> ->] & Hb).
    apply list_elem_of_omap in Hb as (j & Hj & Heq). simpl in Heq. subst j.
    exists s'. split; [done|]. by apply setOrder_elem.
  - intros (s' & Hs & Hb). exists (a, s').
    rewrite <- !list_elem_of_In. split; [by apply mapOrder_elem|].
    simpl. apply list_elem_of_fmap. exists b. split; [done|].
    apply list_elem_of_omap. exists (Some b). split; [|done].
    by apply setOrder_elem.
Qed.

Lemma NoDup_omap_id (l : list (option positive)) :
  NoDup l → NoDup (omap id l).
Proof.
  induction l as [|[b|] l IH]; intros Hnd; [constructor| |].
  - apply NoDup_cons in Hnd as [Hnin Hnd]. rewrite omap_id_cons_Some.
    apply NoDup_cons. split; [|by apply IH].
    intros Hin. apply list_elem_of_omap in Hin as (j & Hj & Heq).
    simpl in Heq. by subst j.
  - apply NoDup_cons in Hnd as [_ Hnd]. by apply IH.
Qed.

Lemma depPairs_NoDup (entries : list (positive * gset (option positive))) :
  NoDup entries.*1 → NoDup (depPairs entries).
Proof.
  induction entries as [|[a s'] entries IH]; intros Hnd; [constructor|].
  rewrite fmap_cons in Hnd. apply NoDup_cons in Hnd as [Hnin Hnd].
  change (depPairs ((a, s') :: entries))
    with ((pair a <$> omap id (setOrder s')) ++ depPairs entries).
  apply NoDup_app. split; [|split; [|by apply IH]].
  - apply (NoDup_fmap_2 _). apply NoDup_omap_id. unfold setOrder.
    rewrite merge_sort_Permutation. apply NoDup_elements.
  - intros [a' b] Hin1 Hin2.
    apply list_elem_of_fmap in Hin1 as (b' & [= -> ->] & _).
    apply Hnin. unfold depPairs in Hin2.
    apply list_elem_of_In, in_flat_map in Hin2 as ([a2 s2] & He & Hin2).
    apply list_elem_of_In in He, Hin2. simpl in Hin2.
    apply list_elem_of_fmap in Hin2 as (b2 & [= -> ->] & _).
    apply list_elem_of_fmap. by exists (a2, s2).
Qed.

Lemma toDot_entries (fuel : nat) (m : gmap positive (gset (option positive)))
    (name : list ascii) :
  openError env (dotName name) = [] →
  (∀ A s' b, m !! A = Some s' → Some b ∈ s' →
             lineBreaks (blockText env b) ≤ fuel) →
  toDot env fuel m name
  = if decide (Exists (λ e, None ∈ setOrder e.2) (mapOrder m))
    then Fatal NullDereference
    else Ok (DotWritten (dotName name)
               (dotHeader (dotName name)
                  ++ mjoin (itemText env <$> itemsOf ∅ (depPairs (mapOrder m)))
                  ++ lit "}")).
Proof.
  intros Hopen Hfuel. unfold toDot. fold (dotName name). rewrite Hopen.
  rewrite decide_True by done. rewrite dotEntries_items.
  - destruct (decide (Exists (λ e, None ∈ setOrder e.2) (mapOrder m)));
      [done|].
    rewrite Result_bind_Ok. cbn [snd]. by rewrite <- app_assoc.
  - intros [A s'] b He Hb. apply mapOrder_elem in He.
    apply setOrder_elem in Hb. by eapply Hfuel.
  - apply not_elem_of_empty.
Qed.

(** X22: when the file opens, no dependent-set holds a null pointer and
    the fuel covers the line breaks of every dependent's text, [toDot]
    writes the header, a sequence of statements and the closing brace.
    No statement is written twice; a node is declared exactly for the
    blocks that are a member of some dependent-set (a controller that is
    nobody's dependent gets no node statement); there is exactly one
    edge per (controller, dependent) pair; and every edge comes after
    the node statement of its dependent. *)
Theorem dot_file_statements (fuel : nat)
    (m : gmap positive (gset (option positive))) (name : list ascii) :
  openError env (dotName name) = [] →
  (∀ A s', m !! A = Some s' → None ∉ s') →
  (∀ A s' b, m !! A = Some s' → Some b ∈ s' →
             lineBreaks (blockText env b) ≤ fuel) →
  ∃ items,
    toDot env fuel m name
    = Ok (DotWritten (dotName name)
            (dotHeader (dotName name) ++ mjoin (itemText env <$> items)
               ++ lit "}"))
    ∧ NoDup items
    ∧ (∀ b, NodeDef b ∈ items ↔ ∃ A s', m !! A = Some s' ∧ Some b ∈ s')
    ∧ (∀ a b, EdgeDef a b ∈ items ↔ ∃ s', m !! a = Some s' ∧ Some b ∈ s')
    ∧ (∀ i a b, items !! i = Some (EdgeDef a b) →
                ∃ k, k < i ∧ items !! k = Some (NodeDef b)).
Proof.
  intros Hopen Hnull Hfuel. exists (itemsOf ∅ (depPairs (mapOrder m))).
  split_and!.
  - rewrite toDot_entries by done. rewrite decide_False; [done|].
    intros ([A s'] & He & Hn)%Exists_exists. apply mapOrder_elem in He.
    apply setOrder_elem in Hn. by eapply Hnull.
  - apply itemsOf_NoDup, depPairs_NoDup. unfold mapOrder.
    rewrite merge_sort_Permutation. apply NoDup_fst_map_to_list.
  - intros b. rewrite itemsOf_NodeDef. split.
    + intros (_ & a & Hin). apply depPairs_elem in Hin. by exists a.
    + intros (A & s' & Hs & Hb). split; [apply not_elem_of_empty|].
      exists A. apply depPairs_elem. by exists s'.
  - intros a b. rewrite itemsOf_EdgeDef. apply depPairs_elem.
  - intros i a b Hi.
    destruct (itemsOf_node_first _ _ _ _ _ Hi) as [Hin|Hk]; [|done].
    by apply not_elem_of_empty in Hin.
Qed.


End DotFacts.

(** * Properties of the printer *)

Section PrintFacts.
Import ControlDependence DataDependence DependenceCheck.

Context {Location NonLocalDepResult : Type}.
Variable penv : PrintEnv NonLocalDepResult.
Variable denv : DotEnv.

Implicit Types (P : Pass NonLocalDepResult) (OS : list ascii).

Lemma forEach_fatal {A S : Type} (body : S → A → Result S)
    (bad : A → Prop) (sig : Signal) (l : list A) :
  (∀ s x, (bad x ∧ body s x = Fatal sig)
          ∨ (¬ bad x ∧ ∃ s', body s x = Ok s')) →
  Exists bad l → ∀ s, forEach body l s = Fatal sig.
Proof.
  intros Hbody. induction 1 as [x l Hx|x l Hl IH]; intros s; simpl.
  - destruct (Hbody s x) as [[_ ->]|[Hnot _]]; done.
  - destruct (Hbody s x) as [[_ ->]|[_ [s' ->]]]; [done|]. apply IH.
Qed.

Lemma forEach_Ok {A S : Type} (body : S → A → Result S) (l : list A) :
  (∀ s x, x ∈ l → ∃ s', body s x = Ok s') →
  ∀ s, ∃ s', forEach body l s = Ok s'.
Proof.
  induction l as [|x l IH]; intros Hbody s; simpl; [by eexists|].
  destruct (Hbody s x) as [s' ->]; [by left|]. simpl. apply IH.
  intros s0 y Hy. apply Hbody. by right.
Qed.

Lemma inKeyOrder_elem {V : Type} (m : gmap positive V) i v :
  (i, v) ∈ inKeyOrder m ↔ m !! i = Some v.
Proof.
  unfold inKeyOrder. rewrite merge_sort_Permutation.
  apply elem_of_map_to_list.
Qed.

Lemma printLocal_loop_fatal (L : gmap positive DepInfo) i d OS :
  L !! i = Some d → DepInst_ d = None →
  forEach (printLocal penv) (inKeyOrder L) OS = Fatal NullDereference.
Proof.
  intros Hi Hd.
  apply (forEach_fatal _ (λ e, DepInst_ e.2 = None)).
  - intros s [k e]. unfold printLocal. simpl.
    destruct (DepInst_ e) as [dep|]; [right|by left].
    split; [done|by eexists].
  - apply Exists_exists. exists (i, d). split; [|done].
    by apply inKeyOrder_elem.
Qed.

(** X24: when some record of the Local map has no instruction depended
    on, [print] dereferences the null pointer: it ends with a null
    dereference, whatever else the maps hold. *)
Theorem print_null_dependence_is_fatal (fuel : nat) P OS
    (i : Instruction) (d : DepInfo) :
  LocalDeps_ (DataDep P) !! i = Some d → DepInst_ d = None →
  print penv denv fuel P OS = Fatal NullDereference.
Proof.
  intros Hi Hd. unfold print.
  by rewrite (printLocal_loop_fatal _ i d).
Qed.

(** X25: after a run of the tracker that ended normally over a function
    holding a memory access whose oracle result is local and names no
    instruction (as for a result with no dependence in the function),
    printing the pass ends with a null dereference. *)
Theorem print_after_run_is_fatal (IR : HostIR)
    (MDA : MemoryDependenceAnalysis Location NonLocalDepResult)
    (AA : AliasAnalysis Location) (F : list Instruction)
    (st st' : State NonLocalDepResult) (inst : Instruction)
    (fuel : nat) (C : gmap positive (gset (option positive))) OS :
  getDataDependencies IR MDA AA F st = Done st' →
  inst ∈ F → accessesMemory IR inst →
  isNonLocal (getDependency MDA inst) = false →
  getInst (getDependency MDA inst) = None →
  print penv denv fuel {| DataDep := st'; ControlDep := C |} OS
  = Fatal NullDereference.
Proof.
  intros Hrun Hin Hacc Hn Hnull.
  destruct (getDataDependencies_Local_lookup IR MDA AA F st st' inst)
    as (d & Hd & Hl); [done..|].
  apply getDepInfo_Ok in Hd as (Hinst & _).
  unfold print. simpl.
  rewrite (printLocal_loop_fatal _ inst d); [done|done|congruence].
Qed.

(** X26: when every Local record names an instruction, every Non-Local
    entry has an address, no dependent-set holds a null pointer and the
    fuel covers the line breaks of the dependents' texts, [print] ends
    normally. *)
Theorem print_ends_normally (fuel : nat) P OS :
  (∀ i d, LocalDeps_ (DataDep P) !! i = Some d → is_Some (DepInst_ d)) →
  (∀ i l j, NonLocalDeps_ (DataDep P) !! i = Some l → j ∈ l →
            is_Some (getAddress penv j)) →
  (∀ A s, ControlDep P !! A = Some s → None ∉ s) →
  (∀ A s b, ControlDep P !! A = Some s → Some b ∈ s →
            lineBreaks (blockText denv b) ≤ fuel) →
  ∃ OS' dot, print penv denv fuel P OS = Ok (OS', dot).
Proof.
  intros HL HN HC Hfuel. unfold print.
  edestruct (forEach_Ok (printLocal penv)
               (inKeyOrder (LocalDeps_ (DataDep P)))) as [OS2 ->].
  { intros s [i d] Hin%inKeyOrder_elem. unfold printLocal. simpl.
    destruct (HL i d Hin) as [dep ->]. by eexists. }
  rewrite Result_bind_Ok.
  edestruct (forEach_Ok (printNonLocal penv)
               (inKeyOrder (NonLocalDeps_ (DataDep P)))) as [OS4 ->].
  { intros s [i l] Hin%inKeyOrder_elem. unfold printNonLocal. simpl.
    apply forEach_Ok. intros s0 j Hj. unfold printAddress.
    destruct (HN i l j Hin Hj) as [addr ->]. by eexists. }
  rewrite Result_bind_Ok.
  assert (∃ dot, toDot denv fuel (ControlDep P) [] = Ok dot) as [dot ->].
  { destruct (decide (openError denv (dotName []) = [])) as [Hopen|Hopen].
    - rewrite toDot_entries by done. rewrite decide_False; [by eexists|].
      intros ([A s] & He & Hnull)%Exists_exists.
      apply mapOrder_elem in He. apply setOrder_elem in Hnull.
      by eapply HC.
    - unfold toDot. fold (dotName []). rewrite decide_False by done.
      by eexists. }
  rewrite Result_bind_Ok.
  edestruct (forEach_Ok (printControl denv) (mapOrder (ControlDep P)))
    as [OS5 ->].
  { intros s [A s'] Hin%mapOrder_elem. unfold printControl. simpl.
    apply forEach_Ok. intros s0 [b|] Hj%setOrder_elem.
    - by eexists.
    - by destruct (HC A s' Hin). }
  by eexists _, _.
Qed.

End PrintFacts.

(** ** The further properties at the examples *)

Section MoreExamples.
Import ControlDependence DataDependence DependenceCheck.

Lemma no_selected_edge_no_change_witness :
  getControlDependencies lineCFG linePDT 0 ∅ = Ok ∅.
Proof.
  apply (no_selected_edge_no_change linePDT lineCFG 0 ∅).
  intros A B Hin. unfold lineCFG, cfgEdges in Hin. simpl in Hin.
  repeat (apply elem_of_cons in Hin as [[= -> ->]|Hin]; [by vm_compute|]).
  by apply elem_of_nil in Hin.
Defined.

Lemma build_grows_from_selected_tails_witness :
  grows ∅ {[ 2%positive := {[ Some 3%positive; Some 4%positive ]} ]}
  ∧ ∀ A, A ∈ dom ({[ 2%positive := {[ Some 3%positive; Some 4%positive ]} ]}
                    : gmap positive (gset (option positive))) →
      A ∈ dom (∅ : gmap positive (gset (option positive)))
      ∨ ∃ B, (A, B) ∈ cfgEdges diamondCFG
             ∧ properlyDominates diamondPDT B A = false
             ∧ is_Some (findNearestCommonDominator diamondPDT A B).
Proof.
  apply (build_grows_from_selected_tails diamondPDT diamondCFG 1 ∅).
  by vm_compute.
Defined.

Lemma layout_does_not_matter_witness :
  getControlDependencies diamondCFG' diamondPDT 1 ∅
  = Ok {[ 2%positive := {[ Some 3%positive; Some 4%positive ]} ]}.
Proof.
  apply (layout_does_not_matter diamondPDT diamondCFG diamondCFG' 1 ∅).
  - change (cfgEdges diamondCFG') with (reverse (cfgEdges diamondCFG)).
    symmetry. apply reverse_Permutation.
  - by vm_compute.
Defined.

Lemma block_outside_tree_is_fatal_witness :
  processEdge strayPDT 5 ∅ {| tail := 1; head := 2 |} = Fatal NullDereference.
Proof.
  destruct (block_outside_tree_is_fatal strayPDT 5 1 2 1) as [Hedge _].
  - reflexivity.
  - right. exists 1%positive. split; [reflexivity|].
    split; [by eexists|reflexivity].
  - apply Hedge.
Defined.

Lemma selected_head_depends_on_tail_witness :
  ∃ s, ({[ 2%positive := {[ Some 3%positive; Some 4%positive ]} ]}
          : gmap positive (gset (option positive))) !! 2%positive = Some s
       ∧ Some 3%positive ∈ s.
Proof.
  apply (selected_head_depends_on_tail diamondPDT diamondCFG 1 ∅
           {[ 2%positive := {[ Some 3%positive; Some 4%positive ]} ]} 2 3).
  - exact diamondPDT_pdtOf.
  - apply list_elem_of_In. vm_compute. tauto.
  - reflexivity.
  - by eexists.
  - by vm_compute.
Defined.

Lemma finished_run_walks_reach_parent_witness :
  ∃ nA l, getNode loopPDT 1 = Some nA
          ∧ idomPath loopPDT (getIDom loopPDT nA) (getNode loopPDT 2) l
          ∧ length l ≤ 2.
Proof.
  apply (finished_run_walks_reach_parent loopPDT loopCFG 2 ∅
           {[ 1%positive := {[ Some 2%positive; Some 1%positive ]} ]} 1 2 1).
  - by vm_compute.
  - apply list_elem_of_In. vm_compute. tauto.
  - reflexivity.
Defined.

Lemma depTypeToString_inj_witness : NonFuncLocal = NonFuncLocal.
Proof. apply (depTypeToString_inj NonFuncLocal NonFuncLocal). reflexivity. Defined.

Lemma fatal_signals_of_processDepResult_witness :
  AssertionFailed "atomic/volatile loads not handled"
  ∈ [ Unreachable "unknown dependence type";
      AssertionFailed "newInfo.Type_ == NonLocal";
      AssertionFailed "atomic/volatile loads not handled";
      AssertionFailed "atomic/volatile stores not handled";
      Unreachable "Unknown memory instruction!" ].
Proof.
  apply (fatal_signals_of_processDepResult exampleIR exampleMDA exampleAA
           4 emptyState _
           (warn "[WARNING] atomic/volatile loads are not handled"
              emptyState)).
  reflexivity.
Defined.

Lemma unknown_memory_instruction_is_fatal_witness :
  processDepResult exampleIR exampleMDA exampleAA 7 emptyState
  = Aborted (Unreachable "Unknown memory instruction!") emptyState.
Proof.
  destruct (unknown_memory_instruction_is_fatal exampleIR exampleMDA
              exampleAA 7 emptyState) as [Hstep _];
    [reflexivity|split; reflexivity|exact Hstep].
Defined.

Lemma aborted_run_keeps_prefix_results_witness :
  ∃ F1 inst F2 st1,
    [2; 4; 1]%positive = F1 ++ inst :: F2
    ∧ getDataDependencies exampleIR exampleMDA exampleAA F1 emptyState
      = Done st1
    ∧ accessesMemory exampleIR inst
    ∧ processDepResult exampleIR exampleMDA exampleAA inst st1
      = Aborted (AssertionFailed "atomic/volatile loads not handled")
          (warn "[WARNING] atomic/volatile loads are not handled"
             (storeLocal 2 (mkDepInfo (Some 1%positive) Def) emptyState))
    ∧ LocalDeps_ (warn "[WARNING] atomic/volatile loads are not handled"
                    (storeLocal 2 (mkDepInfo (Some 1%positive) Def)
                       (@emptyState (positive * positive))))
      = LocalDeps_ st1
    ∧ NonLocalDeps_ (warn "[WARNING] atomic/volatile loads are not handled"
                       (storeLocal 2 (mkDepInfo (Some 1%positive) Def)
                          (@emptyState (positive * positive))))
      = NonLocalDeps_ st1.
Proof.
  apply (aborted_run_keeps_prefix_results exampleIR exampleMDA exampleAA
           [2; 4; 1]%positive emptyState).
  reflexivity.
Defined.

Lemma local_lookup_after_run_witness :
  ∃ d, getDepInfo (getDependency exampleMDA 5%positive) = Ok d
       ∧ LocalDeps_ (stateOf (getDataDependencies exampleIR exampleMDA
                                exampleAA [6; 2; 1; 3; 5]%positive
                                emptyState)) !! 5%positive = Some d.
Proof.
  destruct (local_lookup_after_run exampleIR exampleMDA exampleAA
              [6; 2; 1; 3; 5]%positive emptyState
              (stateOf (getDataDependencies exampleIR exampleMDA exampleAA
                          [6; 2; 1; 3; 5]%positive emptyState)))
    as [Hlook _]; [by vm_compute|].
  apply Hlook.
  - apply list_elem_of_In. simpl. tauto.
  - left. reflexivity.
  - reflexivity.
Defined.

Lemma nonlocal_record_after_run_witness :
  default [] (NonLocalDeps_
                (stateOf (getDataDependencies exampleIR exampleMDA exampleAA
                            [3; 1; 3]%positive emptyState)) !! 3%positive)
  = [(3, 8); (3, 9); (3, 8); (3, 9)]%positive.
Proof.
  rewrite (nonlocal_record_after_run exampleIR exampleMDA exampleAA
             [3; 1; 3]%positive emptyState
             (stateOf (getDataDependencies exampleIR exampleMDA exampleAA
                         [3; 1; 3]%positive emptyState)) 3%positive).
  - reflexivity.
  - by vm_compute.
  - left. reflexivity.
  - reflexivity.
Defined.

Lemma second_run_keeps_local_map_witness :
  ∃ st2,
    getDataDependencies exampleIR exampleMDA exampleAA [6; 2; 1; 3; 5]%positive
      (stateOf (getDataDependencies exampleIR exampleMDA exampleAA
                  [6; 2; 1; 3; 5]%positive emptyState)) = Done st2
    ∧ LocalDeps_ st2
      = LocalDeps_ (stateOf (getDataDependencies exampleIR exampleMDA
                               exampleAA [6; 2; 1; 3; 5]%positive emptyState))
    ∧ errs st2
      = errs (stateOf (getDataDependencies exampleIR exampleMDA exampleAA
                         [6; 2; 1; 3; 5]%positive emptyState)).
Proof.
  apply (second_run_keeps_local_map exampleIR exampleMDA exampleAA
           [6; 2; 1; 3; 5]%positive emptyState).
  by vm_compute.
Defined.

Lemma pass_keeps_map_invariants_witness :
  ∃ P', runOnModule exampleIR exampleAA 1 exampleModule freshPass = Ok P'
        ∧ localKindsOnly (DataDep P') ∧ noInvalidStored (DataDep P')
        ∧ keysNonEmpty (ControlDep P').
Proof.
  eexists. split; [by vm_compute|].
  apply (pass_keeps_map_invariants exampleIR exampleAA 1 exampleModule
           freshPass).
  - intros mi Hin Hd. unfold exampleModule in Hin.
    apply elem_of_cons in Hin as [->|Hin]; [discriminate Hd|].
    apply elem_of_cons in Hin as [->|Hin]; [exact diamondPDT_pdtOf|].
    by apply elem_of_nil in Hin.
  - intros i d Hi. simpl in Hi. by rewrite lookup_empty in Hi.
  - intros A s Hs. simpl in Hs. by rewrite lookup_empty in Hs.
  - by vm_compute.
Defined.

Lemma escape_loop_replaces_line_breaks_witness :
  escapeLoop 2 (lit "bb" ++ [newline] ++ lit "ret" ++ [newline])
  = Ok (lit "bb" ++ [backslash; "l"%char] ++ lit "ret"
          ++ [backslash; "l"%char]).
Proof.
  destruct (escape_loop_replaces_line_breaks 2
              (lit "bb" ++ [newline] ++ lit "ret" ++ [newline]))
    as [Hloop _]; [vm_compute; lia|exact Hloop].
Defined.

Lemma dot_file_statements_witness :
  ∃ items,
    toDot exampleDotEnv 2
      {[ 2%positive := {[ Some 3%positive; Some 4%positive ]} ]} []
    = Ok (DotWritten (dotName [])
            (dotHeader (dotName [])
               ++ mjoin (itemText exampleDotEnv <$> items) ++ lit "}"))
    ∧ NoDup items
    ∧ (∀ b, NodeDef b ∈ items
            ↔ ∃ A s', ({[ 2%positive := {[ Some 3%positive;
                                           Some 4%positive ]} ]}
                         : gmap positive (gset (option positive))) !! A
                      = Some s' ∧ Some b ∈ s')
    ∧ (∀ a b, EdgeDef a b ∈ items
              ↔ ∃ s', ({[ 2%positive := {[ Some 3%positive;
                                           Some 4%positive ]} ]}
                         : gmap positive (gset (option positive))) !! a
                      = Some s' ∧ Some b ∈ s')
    ∧ (∀ i a b, items !! i = Some (EdgeDef a b) →
                ∃ k, k < i ∧ items !! k = Some (NodeDef b)).
Proof.
  apply (dot_file_statements exampleDotEnv 2
           {[ 2%positive := {[ Some 3%positive; Some 4%positive ]} ]} []).
  - reflexivity.
  - intros A s' [<- <-]%lookup_singleton_Some.
    intros [Hn%elem_of_singleton|Hn%elem_of_singleton]%elem_of_union;
      discriminate Hn.
  - intros A s' b _ _. vm_compute. lia.
Defined.


Lemma print_null_dependence_is_fatal_witness :
  print examplePrintEnv exampleDotEnv 0
    {| DataDep := storeLocal 5 (mkDepInfo None NonFuncLocal) emptyState;
       ControlDep := ∅ |} []
  = Fatal NullDereference.
Proof.
  apply (print_null_dependence_is_fatal examplePrintEnv exampleDotEnv 0
           {| DataDep := storeLocal 5 (mkDepInfo None NonFuncLocal) emptyState;
              ControlDep := ∅ |} [] 5 (mkDepInfo None NonFuncLocal));
    reflexivity.
Defined.

Lemma print_after_run_is_fatal_witness :
  print examplePrintEnv exampleDotEnv 0
    {| DataDep := stateOf (getDataDependencies exampleIR entryMDA exampleAA
                             [1%positive] emptyState);
       ControlDep := ∅ |} []
  = Fatal NullDereference.
Proof.
  apply (print_after_run_is_fatal examplePrintEnv exampleDotEnv exampleIR
           entryMDA exampleAA [1%positive] emptyState
           (stateOf (getDataDependencies exampleIR entryMDA exampleAA
                       [1%positive] emptyState)) 1 0 ∅ []).
  - reflexivity.
  - by left.
  - left. reflexivity.
  - reflexivity.
  - reflexivity.
Defined.

Lemma print_ends_normally_witness :
  ∃ OS' dot,
    print examplePrintEnv exampleDotEnv 2 examplePass [] = Ok (OS', dot).
Proof.
  apply (print_ends_normally examplePrintEnv exampleDotEnv 2 examplePass []).
  - intros i d Hi. simpl in Hi.
    apply lookup_singleton_Some in Hi as [<- <-]. by eexists.
  - intros i l j _ _. by eexists.
  - intros A s Hs. simpl in Hs.
    apply lookup_singleton_Some in Hs as [<- <-].
    intros Hn%elem_of_singleton. discriminate Hn.
  - intros A s b _ _. vm_compute. lia.
Defined.

End MoreExamples.

(** The dot file of the branch function, and what is printed for the
    example pass. *)
Example diamond_dot_file :
  ControlDependence.toDot ControlDependence.exampleDotEnv 2
    {[ 2%positive := {[ Some 3%positive; Some 4%positive ]} ]} []
  = Ok (ControlDependence.DotWritten
          (ControlDependence.lit "controldeps.dot")
          (ControlDependence.lit "digraph "
             ++ [ControlDependence.dquote]
             ++ ControlDependence.lit "CDG for controldeps.dot module"
             ++ [ControlDependence.dquote]
             ++ ControlDependence.lit " {" ++ [ControlDependence.newline]
             ++ ControlDependence.lit "Node3 [shape=record, label="
             ++ [ControlDependence.dquote]
             ++ ControlDependence.lit "bb\lret\l"
             ++ [ControlDependence.dquote]
             ++ ControlDependence.lit "];" ++ [ControlDependence.newline]
             ++ ControlDependence.lit "Node2->Node3"
             ++ [ControlDependence.newline]
             ++ ControlDependence.lit "Node4 [shape=record, label="
             ++ [ControlDependence.dquote]
             ++ ControlDependence.lit "bb\lret\l"
             ++ [ControlDependence.dquote]
             ++ ControlDependence.lit "];" ++ [ControlDependence.newline]
             ++ ControlDependence.lit "Node2->Node4"
             ++ [ControlDependence.newline]
             ++ ControlDependence.lit "}")).
Proof. by vm_compute. Qed.
